(** * TownTask image tools: background removal and sprite sheets

    A shallow embedding of [tools/image_processor.py] and [process_cat.py].

    Data representation.
    - A pixel is an RGBA quadruple of integers in [0, 255].
    - An image (a numpy array of shape (height, width, 4) and dtype uint8, or
      a PIL image in mode RGBA) is the list of its rows.
    - numpy scalars of dtype uint8 keep their dtype under [+] and [-]: the
      result is reduced modulo 256.  This is written out in [u8_add] and
      [u8_sub].
    - A basic index of a numpy array ([result[y, x][:3]]) is a view that
      shares the array's memory; it is modelled by its location and read
      through the array (see [visit_neighbor]).
    - Python floats and numpy float64 values are IEEE 754 binary64 numbers,
      that is Rocq's primitive floats.
    - Pixels read through PIL's [img.load()] are tuples of Python integers,
      whose arithmetic is exact.

    The one place where NumPy versions differ, the promotion of a Python
    int added to a uint8 scalar, is a parameter ([promotion]); every
    property of the flood fill is shown for both rules. *)

From Stdlib Require Import ZArith Lia Floats Uint63.
From stdpp Require Import base list numbers.

Set Default Proof Using "Type".
#[local] Set Warnings "-inexact-float".
#[local] Open Scope Z_scope.

(** ** Pixels and arrays *)

Record pixel : Type := RGBA { red : Z; green : Z; blue : Z; alpha : Z }.

#[global] Instance pixel_eq_dec : EqDecision pixel.
Proof. solve_decision. Defined.

Abbreviation image := (list (list pixel)).

(** The value [[0, 0, 0, 0]] written by every strategy. *)
Definition transparent : pixel := RGBA 0 0 0 0.

Definition height {A} (arr : list (list A)) : nat := length arr.

Definition width {A} (arr : list (list A)) : nat :=
  match arr with
  | [] => 0%nat
  | row :: _ => length row
  end.

(** [arr[i, j]].  Every read of the programs is guarded by the loop bounds,
    so the value chosen outside the array is never observed (see
    [flood_wf]); it is the given default. *)
Definition get2 {A} (d : A) (arr : list (list A)) (i j : nat) : A :=
  default d (arr !! i ≫= (.!! j)).

(** [arr[i, j] = v], inside the array. *)
Definition set2 {A} (arr : list (list A)) (i j : nat) (v : A) : list (list A) :=
  alter (<[j := v]>) i arr.

(** [np.zeros((h, w), dtype=bool)] and [Image.new(mode, (w, h), v)]. *)
Definition full {A} (h w : nat) (v : A) : list (list A) :=
  replicate h (replicate w v).

(** numpy slices clip to the array: [l[start:stop]] and [l[-n:]]. *)
Definition slice {A} (start stop : nat) (l : list A) : list A :=
  take (stop - start) (drop start l).

Definition last_n {A} (n : nat) (l : list A) : list A :=
  drop (length l - n) l.

(** [range(0, stop, 2)]. *)
Definition range_by2 (stop : nat) : list nat :=
  (λ k, 2 * k)%nat <$> seq 0 (Nat.div2 (stop + 1)).

(** ** Scalar arithmetic *)

(** uint8 [+] uint8 and uint8 [-] uint8 on numpy scalars wrap around. *)
Definition u8_add (a b : Z) : Z := (a + b) mod 256.
Definition u8_sub (a b : Z) : Z := (a - b) mod 256.
(** [abs] of an unsigned scalar is the scalar. *)
Definition u8_abs (a : Z) : Z := a.

Definition max3 (a b c : Z) : Z := Z.max (Z.max a b) c.

(** Conversion of an integer (below 2^53 in every use) to binary64. *)
Definition float_of_Z (z : Z) : float := PrimFloat.of_uint63 (Uint63.of_Z z).

Definition fgt (x y : float) : bool := PrimFloat.ltb y x.
Definition flt (x y : float) : bool := PrimFloat.ltb x y.

(** A pixel is light for a threshold [t] when [r > t and g > t and b > t]. *)
Definition all_above (t : Z) (p : pixel) : bool :=
  (t <? red p) && (t <? green p) && (t <? blue p).

Module ImageProcessor.

(** ** Background-type detection *)

Inductive method : Type := Checkerboard | WhiteGray | EdgeFlood.

#[global] Instance method_eq_dec : EqDecision method.
Proof. solve_decision. Defined.

(** [(r + g + b) / 3] on uint8 scalars: the sum is a uint8, the quotient a
    float64. *)
Definition brightness (p : pixel) : float :=
  PrimFloat.div (float_of_Z (u8_add (u8_add (red p) (green p)) (blue p))) 3%float.

Definition fabs_diff (x y : float) : float := PrimFloat.abs (PrimFloat.sub x y).

Definition is_checkerboard_block (block : image) : bool :=
  if negb (height block =? 2)%nat || negb (width block =? 2)%nat then false
  else
    let b i j := brightness (get2 transparent block i j) in
    let diag1_diff := fabs_diff (b 0 0)%nat (b 1 1)%nat in
    let diag2_diff := fabs_diff (b 0 1)%nat (b 1 0)%nat in
    let cross_diff := fabs_diff (b 0 0)%nat (b 0 1)%nat in
    flt diag1_diff 30%float && flt diag2_diff 30%float && fgt cross_diff 50%float.

(** [arr[i:i+2, j:j+2]] *)
Definition block_at (arr : image) (i j : nat) : image :=
  slice j (j + 2) <$> slice i (i + 2) arr.

(** The pairs [(i, j)] visited by
    [for i in range(0, h-1, 2): for j in range(0, w-1, 2): if i+1 < h and j+1 < w]. *)
Definition block_origins (h w : nat) : list (nat * nat) :=
  i ← range_by2 (h - 1);
  j ← range_by2 (w - 1);
  if bool_decide (i + 1 < h ∧ j + 1 < w)%nat then [(i, j)] else [].

Definition has_checkerboard_pattern (corner : image) : bool :=
  if (height corner <? 4)%nat || (width corner <? 4)%nat then false
  else
    let '(alternating_count, total_checks) :=
      foldl (λ '(alt, tot) '(i, j),
               ((if is_checkerboard_block (block_at corner i j) then alt + 1 else alt),
                tot + 1))
            (0, 0) (block_origins (height corner) (width corner)) in
    (0 <? total_checks) &&
    fgt (PrimFloat.div (float_of_Z alternating_count) (float_of_Z total_checks))
        0.5%float.

Definition corner_samples (img_array : image) : list image :=
  [ slice 0 10 <$> slice 0 10 img_array;
    last_n 10 <$> slice 0 10 img_array;
    slice 0 10 <$> last_n 10 img_array;
    last_n 10 <$> last_n 10 img_array ].

(** [None] stands for the [ZeroDivisionError] raised when no pixel was
    sampled. *)
Definition detect_background_type (img_array : image) : option method :=
  let corners := corner_samples img_array in
  let checkerboard_score :=
    foldl (λ score corner, if has_checkerboard_pattern corner then score + 1 else score)
          0 corners in
  if 2 <=? checkerboard_score then Some Checkerboard
  else
    let '(light_pixel_count, total_pixels) :=
      foldl (λ acc corner,
        foldl (λ acc row,
          foldl (λ '(light, tot) p,
                   ((if all_above 200 p then light + 1 else light), tot + 1))
                acc row) acc corner) (0, 0) corners in
    if total_pixels =? 0 then None
    else if fgt (PrimFloat.div (float_of_Z light_pixel_count) (float_of_Z total_pixels))
                0.7%float
    then Some WhiteGray
    else Some EdgeFlood.

(** ** Removal strategies *)

(** [for i in range(h): for j in range(w): body], threading the state. *)
Definition for2 {S} (h w : nat) (body : nat → nat → S → S) (init : S) : S :=
  foldl (λ acc i, foldl (λ acc j, body i j acc) acc (seq 0 w)) init (seq 0 h).

(** [mask[i:i+2, j:j+2] = True] *)
Definition set_block (mask : list (list bool)) (i j : nat) : list (list bool) :=
  set2 (set2 (set2 (set2 mask i j true) i (j + 1) true) (i + 1) j true)
       (i + 1) (j + 1) true.

(** [result[mask] = [0, 0, 0, 0]] *)
Definition clear_masked (mask : list (list bool)) (result : image) : image :=
  imap (λ i row, imap (λ j p, if get2 false mask i j then transparent else p) row)
       result.

Definition remove_checkerboard_background (img_array : image) : image :=
  let h := height img_array in
  let w := width img_array in
  let result := img_array in
  let background_mask := full h w false in
  let background_mask :=
    foldl (λ mask '(i, j),
             if is_checkerboard_block (block_at img_array i j)
             then set_block mask i j else mask)
          background_mask (block_origins h w) in
  let background_mask :=
    for2 h w (λ i j mask,
                if all_above 220 (get2 transparent img_array i j)
                then set2 mask i j true else mask)
         background_mask in
  clear_masked background_mask result.

Definition remove_white_gray_background_tol (tolerance : Z) (img_array : image) : image :=
  let result := img_array in
  for2 (height result) (width result)
       (λ i j result,
          let p := get2 transparent result i j in
          let '(r, g, b) := (red p, green p, blue p) in
          let color_similarity :=
            max3 (u8_abs (u8_sub r g)) (u8_abs (u8_sub g b)) (u8_abs (u8_sub r b)) in
          if (color_similarity <? tolerance) && fgt (brightness p) 180%float
          then set2 result i j transparent
          else result)
       result.

(** The default [tolerance=40]. *)
Definition remove_white_gray_background : image → image :=
  remove_white_gray_background_tol 40.

(** *** Edge flood fill *)

(** How the builtin [sum] adds its Python int accumulator to a uint8 scalar.
    Under value-based promotion (NumPy 1.x) the accumulator becomes an int64
    and the sum is exact; under weak promotion (NEP 50, NumPy 2) it stays a
    uint8 and wraps. *)
Inductive promotion : Type := ValueBased | Weak.

Definition py_sum (promo : promotion) (terms : list Z) : Z :=
  foldl (λ acc d, match promo with ValueBased => acc + d | Weak => u8_add acc d end)
        0 terms.

(** [arr[y, x][:3]] *)
Definition rgb (arr : image) (loc : nat * nat) : list Z :=
  let p := get2 transparent arr loc.1 loc.2 in [red p; green p; blue p].

(** [sum(abs(a - b) for a, b in zip(seed_color, neighbor_color))] *)
Definition color_diff (promo : promotion) (seed_color neighbor_color : list Z) : Z :=
  py_sum promo (zip_with (λ a b, u8_abs (u8_sub a b)) seed_color neighbor_color).

Record flood_state : Type := FloodState {
  result : image;
  visited : list (list bool);
  queue : list (nat * nat)
}.

Definition is_edge (h w i j : nat) : bool :=
  ((i =? 0) || (i =? h - 1) || (j =? 0) || (j =? w - 1))%nat.

Definition edge_pixels (h w : nat) : list (nat * nat) :=
  for2 h w (λ i j q, if is_edge h w i j then q ++ [(i, j)] else q) [].

Definition offsets : list Z := [-1; 0; 1].

(** The body of [for dy in [-1, 0, 1]: for dx in [-1, 0, 1]] for the cell
    [(y, x)] popped from the queue.

    [seed_color = result[y, x][:3]] is a basic-index view: it shares the
    memory of [result], so it is kept as the location [(y, x)] and read
    through the array where it is used. *)
Definition visit_neighbor (promo : promotion) (h w : nat) (result : image)
  (visited : list (list bool)) (seed_color : nat * nat) (y x : nat)
  (q : list (nat * nat)) (dy dx : Z) : list (nat * nat) :=
  let ny := Z.of_nat y + dy in
  let nx := Z.of_nat x + dx in
  if (0 <=? ny) && (ny <? Z.of_nat h) && (0 <=? nx) && (nx <? Z.of_nat w)
     && negb (get2 false visited (Z.to_nat ny) (Z.to_nat nx))
  then
    let neighbor_color := rgb result (Z.to_nat ny, Z.to_nat nx) in
    if color_diff promo (rgb result seed_color) neighbor_color <? 60
    then q ++ [(Z.to_nat ny, Z.to_nat nx)]
    else q
  else q.

(** One iteration of [while queue:]; [None] when the queue is empty.
    [r, g, b = seed_color] copies the three scalars before the pixel is
    overwritten. *)
Definition flood_step (promo : promotion) (h w : nat) (st : flood_state)
  : option flood_state :=
  match queue st with
  | [] => None
  | (y, x) :: queue' =>
    if get2 false (visited st) y x then
      Some (FloodState (result st) (visited st) queue')
    else
      let visited' := set2 (visited st) y x true in
      let seed_color := (y, x) in
      let '(r, g, b) :=
        let p := get2 transparent (result st) y x in (red p, green p, blue p) in
      if negb ((180 <? r) && (180 <? g) && (180 <? b)) then
        Some (FloodState (result st) visited' queue')
      else
        let result' := set2 (result st) y x transparent in
        let queue'' :=
          foldl (λ q dy,
                   foldl (λ q dx, visit_neighbor promo h w result' visited' seed_color
                                                 y x q dy dx)
                         q offsets)
                queue' offsets in
        Some (FloodState result' visited' queue'')
  end.

(** The [while] loop, cut off after [fuel] iterations. *)
Fixpoint flood_loop (promo : promotion) (h w : nat) (fuel : nat) (st : flood_state)
  : flood_state :=
  match fuel with
  | O => st
  | S fuel' =>
    match flood_step promo h w st with
    | Some st' => flood_loop promo h w fuel' st'
    | None => st
    end
  end.

Definition flood_init (img_array : image) : flood_state :=
  let h := height img_array in
  let w := width img_array in
  FloodState img_array (full h w false) (edge_pixels h w).

(** A number of iterations after which the queue is empty
    (shown in the section on termination). *)
Definition flood_fuel (h w : nat) : nat :=
  (10 * (h * w) + length (edge_pixels h w))%nat.

Definition remove_background_flood_fill (promo : promotion) (img_array : image) : image :=
  let h := height img_array in
  let w := width img_array in
  result (flood_loop promo h w (flood_fuel h w) (flood_init img_array)).

(** ** Best-result selection *)

(** [np.sum(alpha_channel == 0) / alpha_channel.size] *)
Definition calculate_transparency_ratio (img : image) : float :=
  let alpha_channel := (λ row : list pixel, alpha <$> row) <$> img in
  let transparent_pixels :=
    length (filter (λ a, a = 0) (concat alpha_channel)) in
  let total_pixels := length (concat alpha_channel) in
  PrimFloat.div (float_of_Z (Z.of_nat transparent_pixels))
                (float_of_Z (Z.of_nat total_pixels)).

(** The [method] argument of [remove_complex_background]. *)
Inductive method_choice : Type := Auto | Use (m : method).

(** The [if method == ...] chain of [remove_complex_background]. *)
Definition apply_method (promo : promotion) (m : method) (img_array : image) : image :=
  match m with
  | Checkerboard => remove_checkerboard_background img_array
  | WhiteGray => remove_white_gray_background img_array
  | EdgeFlood => remove_background_flood_fill promo img_array
  end.

(** [remove_complex_background] on the decoded array: the file is read,
    the chosen strategy applied and the result written as a PNG, which
    keeps every RGBA value.  [None] is the [None] returned after an
    exception. *)
Definition remove_complex_background (promo : promotion) (choice : method_choice)
  (img_array : image) : option image :=
  m ← match choice with
      | Auto => detect_background_type img_array
      | Use m => Some m
      end;
  Some (apply_method promo m img_array).

Definition methods : list method := [Checkerboard; WhiteGray; EdgeFlood].

(** The variables of [process_single_cat_image] that the loop updates;
    [output] is the content of the file at [output_path]. *)
Record selection : Type := Selection {
  best_result : option float;
  best_method : option method;
  output : option image
}.

(** [0.3 < transparency_ratio < 0.8] *)
Definition in_band (ratio : float) : bool :=
  flt 0.3%float ratio && flt ratio 0.8%float.

(** [abs(ratio - 0.5)] *)
Definition off_half (ratio : float) : float :=
  PrimFloat.abs (PrimFloat.sub ratio 0.5%float).

Definition try_method (promo : promotion) (img_array : image)
  (sel : selection) (m : method) : selection :=
  match remove_complex_background promo (Use m) img_array with
  | None => sel
  | Some result_img =>
    let transparency_ratio := calculate_transparency_ratio result_img in
    if in_band transparency_ratio then
      if match best_result sel with
         | None => true
         | Some best => flt (off_half transparency_ratio) (off_half best)
         end
      then Selection (Some transparency_ratio) (Some m) (Some result_img)
      else sel
    else sel
  end.

Definition process_single_cat_image (promo : promotion) (img_array : image)
  : option image :=
  let sel := foldl (try_method promo img_array) (Selection None None None) methods in
  match best_method sel with
  | Some _ => output sel
  | None => remove_complex_background promo (Use WhiteGray) img_array
  end.

(** ** Sprite sheets *)

Section SpriteSheet.
(** Two operations of the imaging library are taken as given:
    [frame.resize((w, h), LANCZOS)], and the value that
    [sheet.paste(frame, box, frame)] stores for a sheet pixel and the frame
    pixel that lands on it (the frame's alpha is the mask). *)
Variable resize : nat * nat → image → image.
Variable paste_pixel : pixel → pixel → pixel.

(** [sheet.paste(frame, (x, y), frame)]: the frame's pixels are blended
    into the region whose upper left corner is [(x, y)]; what falls
    outside the sheet is dropped. *)
Definition paste (sheet frame : image) (x y : nat) : image :=
  for2 (height frame) (width frame)
       (λ dy dx sheet,
          set2 sheet (y + dy) (x + dx)
               (paste_pixel (get2 transparent sheet (y + dy) (x + dx))
                            (get2 transparent frame dy dx)))
       sheet.

(** [image_paths] holds, for each path, the decoded file, or [None] when
    [os.path.exists] fails.  The result is [None] when the function
    returns [None] after an exception: [columns = 0] divides by zero,
    [resize] raises for an empty size, and [save] raises for a sheet
    without pixels (no row, because the list is empty, or a frame width
    or height of 0). *)
Definition create_sprite_sheet (image_paths : list (option image))
  (columns frame_width frame_height : nat) : option image :=
  if (columns =? 0)%nat then None
  else
    let rows := ((length image_paths + columns - 1) / columns)%nat in
    let sheet_width := (columns * frame_width)%nat in
    let sheet_height := (rows * frame_height)%nat in
    let sprite_sheet := full sheet_height sheet_width transparent in
    sprite_sheet ←
      foldl (λ sheet '(i, file),
               sheet ← sheet;
               match file with
               | None => Some sheet
               | Some img =>
                 if (frame_width =? 0)%nat || (frame_height =? 0)%nat then None
                 else
                   let frame := resize (frame_width, frame_height) img in
                   let col := (i mod columns)%nat in
                   let row := (i / columns)%nat in
                   let x := (col * frame_width)%nat in
                   let y := (row * frame_height)%nat in
                   Some (paste sheet frame x y)
               end)
            (Some sprite_sheet) (imap pair image_paths);
    if (sheet_width =? 0)%nat || (sheet_height =? 0)%nat then None
    else Some sprite_sheet.
End SpriteSheet.

(** ** Character frames *)

(** The grid [(columns, rows)] that [process_character_frames] chooses and
    prints for [frame_count] frames. *)
Definition sheet_layout (frame_count : nat) : nat * nat :=
  if (frame_count <=? 4)%nat then (frame_count, 1%nat)
  else if (frame_count <=? 8)%nat then (4%nat, 2%nat)
  else if (frame_count <=? 16)%nat then (4%nat, 4%nat)
  else (8%nat, ((frame_count + 7) / 8)%nat).

Section CharacterFrames.
Variable resize : nat * nat → image → image.
Variable paste_pixel : pixel → pixel → pixel.

(** One frame of the batch: the selector's output, or the 64 by 64
    transparent placeholder when the selector returns nothing (the file
    could not be read: [None]). *)
Definition process_frame (promo : promotion) (file : option image) : image :=
  match file ≫= process_single_cat_image promo with
  | Some frame => frame
  | None => full 64 64 transparent
  end.

(** [process_character_frames] on the decoded PNG files of the directory,
    in sorted order.  Every temporary frame file exists when the sheet is
    assembled. *)
Definition process_character_frames (promo : promotion)
  (png_files : list (option image)) : option image :=
  match png_files with
  | [] => None
  | _ =>
    let processed_frames := process_frame promo <$> png_files in
    let frame_count := length processed_frames in
    let columns := (sheet_layout frame_count).1 in
    create_sprite_sheet resize paste_pixel (Some <$> processed_frames) columns 64 64
  end.
End CharacterFrames.

End ImageProcessor.

Module ProcessCat.

(** Pixels read through [img.load()] are tuples of Python integers: their
    arithmetic is exact. *)

(** [(r + g + b) / 3] *)
Definition brightness (r g b : Z) : float :=
  PrimFloat.div (float_of_Z (r + g + b)) 3%float.

Definition near (tolerance r g b : Z) (bg : Z * Z * Z) : bool :=
  let '(bg_r, bg_g, bg_b) := bg in
  (Z.abs (r - bg_r) <? tolerance) && (Z.abs (g - bg_g) <? tolerance)
  && (Z.abs (b - bg_b) <? tolerance).

Definition is_background_pixel_tol (tolerance : Z) (r g b : Z)
  (background_colors : list (Z * Z * Z)) : bool :=
  if existsb (near tolerance r g b) background_colors then true
  else if (200 <? r) && (200 <? g) && (200 <? b)
          && (max3 (Z.abs (r - g)) (Z.abs (g - b)) (Z.abs (r - b)) <? 30)
  then true
  else if fgt (brightness r g b) 180%float then true
  else false.

(** The default [tolerance=25]. *)
Definition is_background_pixel : Z → Z → Z → list (Z * Z * Z) → bool :=
  is_background_pixel_tol 25.

(** The eight neighbours, in the order of
    [for dy in [-1, 0, 1]: for dx in [-1, 0, 1]] with [(0, 0)] skipped. *)
Definition neighbor_offsets : list (Z * Z) :=
  dy ← [-1; 0; 1]; dx ← [-1; 0; 1];
  if bool_decide (dx = 0 ∧ dy = 0) then [] else [(dy, dx)].

Definition transparent_neighbors (pixels : image) (x y : nat) : Z :=
  foldl (λ n '(dy, dx),
           let na := alpha (get2 transparent pixels
                                 (Z.to_nat (Z.of_nat y + dy))
                                 (Z.to_nat (Z.of_nat x + dx))) in
           if na =? 0 then n + 1 else n)
        0 neighbor_offsets.

(** [pixels] is the image passed in, [result] its copy. *)
Definition cleanup_edges (img : image) : image :=
  let w := width img in
  let h := height img in
  let pixels := img in
  foldl (λ result y,
    foldl (λ result x,
      let p := get2 transparent pixels y x in
      if 0 <? alpha p then
        if 6 <=? transparent_neighbors pixels x y then
          if (180 <? red p) && (180 <? green p) && (180 <? blue p)
          then set2 result y x transparent
          else result
        else result
      else result) result (seq 1 (w - 2))) img (seq 1 (h - 2)).

(** *** Background colours and the pixel pass *)

(** [sample_size = min(20, width//4, height//4)] *)
Definition sample_size (w h : nat) : nat := Nat.min 20 (Nat.min (w / 4) (h / 4)).

(** The four corner loops of [analyze_background_colors], [x] outside and
    [y] inside, in the order of the source. *)
Definition corner_colors (img : image) (xs ys : list nat) : list (Z * Z * Z) :=
  x ← xs; y ← ys;
  let p := get2 transparent img y x in [(red p, green p, blue p)].

Definition edge_colors (img : image) : list (Z * Z * Z) :=
  let w := width img in
  let h := height img in
  let s := sample_size w h in
  corner_colors img (seq 0 s) (seq 0 s)
  ++ corner_colors img (seq (w - s) s) (seq 0 s)
  ++ corner_colors img (seq 0 s) (seq (h - s) s)
  ++ corner_colors img (seq (w - s) s) (seq (h - s) s).

(** [(color[0]//16*16, color[1]//16*16, color[2]//16*16)] *)
Definition quantize (color : Z * Z * Z) : Z * Z * Z :=
  let '(r, g, b) := color in (r / 16 * 16, g / 16 * 16, b / 16 * 16).

(** [color_count[quantized] = color_count.get(quantized, 0) + 1] on a
    dict, which keeps its keys in the order of their first insertion. *)
Fixpoint count_color (quantized : Z * Z * Z) (color_count : list (Z * Z * Z * Z))
  : list (Z * Z * Z * Z) :=
  match color_count with
  | [] => [(quantized, 1)]
  | (k, n) :: rest =>
    if decide (k = quantized) then (k, n + 1) :: rest
    else (k, n) :: count_color quantized rest
  end.

Definition default_background_colors : list (Z * Z * Z) :=
  [(255, 255, 255); (192, 192, 192); (224, 224, 224)].

(** [count / total_samples > 0.1] and [r > 150 and g > 150 and b > 150] *)
Definition frequent_and_bright (total_samples : Z) (entry : Z * Z * Z * Z) : bool :=
  let '(r, g, b, count) := entry in
  fgt (PrimFloat.div (float_of_Z count) (float_of_Z total_samples)) 0.1%float
  && ((150 <? r) && (150 <? g) && (150 <? b)).

Definition analyze_background_colors (img : image) : list (Z * Z * Z) :=
  let edge_colors := edge_colors img in
  let color_count :=
    foldl (λ color_count color, count_color (quantize color) color_count)
          [] edge_colors in
  let total_samples := Z.of_nat (length edge_colors) in
  let background_colors :=
    foldl (λ background_colors entry,
             if frequent_and_bright total_samples entry
             then background_colors ++ [entry.1]
             else background_colors)
          [] color_count in
  match background_colors with
  | [] => default_background_colors
  | _ => background_colors
  end.

(** The pixel loop of [smart_cat_background_removal]: the image is changed
    in place, and the cleared pixels are counted. *)
Definition clear_background (background_colors : list (Z * Z * Z)) (img : image)
  : image * Z :=
  foldl (λ acc y,
    foldl (λ '(pixels, processed_count) x,
      let p := get2 transparent pixels y x in
      if is_background_pixel (red p) (green p) (blue p) background_colors
      then (set2 pixels y x transparent, processed_count + 1)
      else (pixels, processed_count))
      acc (seq 0 (width img)))
    (img, 0) (seq 0 (height img)).

(** [smart_cat_background_removal] on the decoded image: the image that is
    saved, or [None] when the function returns [None] (the ratio printed at
    the end divides by [width * height]). *)
Definition smart_cat_background_removal (img : image) : option image :=
  let background_colors := analyze_background_colors img in
  let '(pixels, processed_count) := clear_background background_colors img in
  let saved := cleanup_edges pixels in
  if (width img * height img =? 0)%nat then None else Some saved.

End ProcessCat.


(** * Properties of the embedded programs *)

Import ImageProcessor.

(** ** Arrays *)

Section Arrays.
Context {A : Type}.
Implicit Types (arr : list (list A)) (v d : A).

(** The lengths of the rows: the shape of an array. *)
Definition row_lengths arr : list nat := length <$> arr.

(** [(i, j)] is a position of [arr]. *)
Definition inside arr (i j : nat) : Prop := is_Some (arr !! i ≫= (.!! j)).

#[global] Instance inside_dec arr i j : Decision (inside arr i j).
Proof. unfold inside. apply _. Defined.

Lemma inside_row_lengths arr i j :
  inside arr i j ↔ ∃ n, row_lengths arr !! i = Some n ∧ (j < n)%nat.
Proof.
  unfold inside, row_lengths. rewrite list_lookup_fmap.
  destruct (arr !! i) as [row|]; simpl.
  - rewrite lookup_lt_is_Some. split; [eauto | intros (n & [= <-] & ?); done].
  - split; [intros []; done | intros (n & ? & _); done].
Qed.

Lemma row_lengths_set2 arr i j v : row_lengths (set2 arr i j v) = row_lengths arr.
Proof.
  unfold row_lengths, set2. apply list_eq; intros k.
  rewrite !list_lookup_fmap. destruct (decide (i = k)) as [->|Hne].
  - rewrite list_lookup_alter_eq. destruct (arr !! k); simpl; [|done].
    by rewrite length_insert.
  - by rewrite list_lookup_alter_ne.
Qed.

Lemma inside_shape arr arr' i j :
  row_lengths arr' = row_lengths arr → inside arr' i j ↔ inside arr i j.
Proof. intros E. by rewrite !inside_row_lengths, E. Qed.

Lemma height_shape arr arr' : row_lengths arr' = row_lengths arr → height arr' = height arr.
Proof.
  unfold height, row_lengths. intros E.
  by rewrite <- (length_fmap length arr'), E, length_fmap.
Qed.

Lemma width_shape arr arr' : row_lengths arr' = row_lengths arr → width arr' = width arr.
Proof. destruct arr, arr'; simpl; intros [=]; done. Qed.

Lemma get2_set2_eq d arr i j v : inside arr i j → get2 d (set2 arr i j v) i j = v.
Proof.
  unfold inside, get2, set2. rewrite list_lookup_alter_eq.
  destruct (arr !! i) as [row|]; simpl; [|intros []; done].
  intros Hj%lookup_lt_is_Some. by rewrite list_lookup_insert_eq.
Qed.

Lemma get2_set2_ne d arr i j i' j' v :
  (i, j) ≠ (i', j') → get2 d (set2 arr i j v) i' j' = get2 d arr i' j'.
Proof.
  unfold get2, set2. intros Hne. destruct (decide (i = i')) as [->|Hi].
  - rewrite list_lookup_alter_eq. destruct (arr !! i') as [row|]; simpl; [|done].
    rewrite list_lookup_insert_ne; [done | congruence].
  - by rewrite list_lookup_alter_ne.
Qed.

Lemma get2_outside d arr i j : ¬ inside arr i j → get2 d arr i j = d.
Proof.
  unfold inside, get2. destruct (arr !! i ≫= (.!! j)); simpl; [|done].
  intros []. eauto.
Qed.

Lemma inside_full h w v i j : inside (full h w v) i j ↔ (i < h)%nat ∧ (j < w)%nat.
Proof.
  unfold inside, full. split.
  - intros [x Hx]. apply bind_Some in Hx as (row & Hrow & Hx).
    apply lookup_replicate in Hrow as [-> ?]. apply lookup_replicate in Hx as [_ ?]. done.
  - intros [Hi Hj]. rewrite (lookup_replicate_2 h (replicate w v) i Hi). simpl.
    rewrite (lookup_replicate_2 w v j Hj). eauto.
Qed.

Lemma get2_full d h w v i j : (i < h)%nat → (j < w)%nat → get2 d (full h w v) i j = v.
Proof.
  intros Hi Hj. unfold get2, full.
  rewrite (lookup_replicate_2 h (replicate w v) i Hi). simpl.
  by rewrite (lookup_replicate_2 w v j Hj).
Qed.

(** Loop invariants for the two loop forms of the programs. *)
Lemma foldl_invariant {S B} (P : S → Prop) (f : S → B → S) (l : list B) (s : S) :
  P s → (∀ s x, x ∈ l → P s → P (f s x)) → P (foldl f s l).
Proof.
  revert s. induction l as [|x l IH]; intros s Hs Hf; simpl; [done|].
  apply IH; [apply Hf; [left | done] | intros; apply Hf; [by right | done]].
Qed.

Lemma for2_invariant {S} (P : S → Prop) h w (body : nat → nat → S → S) (s : S) :
  P s → (∀ i j s, (i < h)%nat → (j < w)%nat → P s → P (body i j s)) → P (for2 h w body s).
Proof.
  intros Hs Hbody. unfold for2. apply foldl_invariant; [done|].
  intros s' i Hi%elem_of_seq Hs'. apply foldl_invariant; [done|].
  intros s'' j Hj%elem_of_seq Hs''. apply Hbody; [lia | lia | done].
Qed.
End Arrays.

(** ** Dimensions are preserved by the removal strategies *)

Section Dimensions.
Implicit Types (img : image).

Lemma clear_masked_shape mask img : row_lengths (clear_masked mask img) = row_lengths img.
Proof.
  unfold row_lengths, clear_masked. apply list_eq; intros i.
  rewrite !list_lookup_fmap, list_lookup_imap.
  destruct (img !! i); simpl; [|done]. by rewrite length_imap.
Qed.

Lemma remove_checkerboard_shape img :
  row_lengths (remove_checkerboard_background img) = row_lengths img.
Proof. apply clear_masked_shape. Qed.

Lemma remove_white_gray_shape tolerance img :
  row_lengths (remove_white_gray_background_tol tolerance img) = row_lengths img.
Proof.
  unfold remove_white_gray_background_tol.
  apply (for2_invariant (λ r : image, row_lengths r = row_lengths img)); [done|].
  intros i j r _ _ Hr.
  repeat case_match; [by rewrite row_lengths_set2 | done].
Qed.

Lemma flood_step_shape promo h w st st' :
  flood_step promo h w st = Some st' →
  row_lengths (result st') = row_lengths (result st)
  ∧ row_lengths (visited st') = row_lengths (visited st).
Proof.
  unfold flood_step. intros Hstep.
  repeat case_match; simplify_eq; simpl; rewrite ?row_lengths_set2; done.
Qed.

Lemma flood_loop_shape promo h w fuel st :
  row_lengths (result (flood_loop promo h w fuel st)) = row_lengths (result st)
  ∧ row_lengths (visited (flood_loop promo h w fuel st)) = row_lengths (visited st).
Proof.
  revert st. induction fuel as [|fuel IH]; intros st; simpl; [done|].
  destruct (flood_step promo h w st) as [st'|] eqn:Hstep; [|done].
  destruct (IH st') as [-> ->]. by eapply flood_step_shape.
Qed.

Lemma remove_flood_fill_shape promo img :
  row_lengths (remove_background_flood_fill promo img) = row_lengths img.
Proof. unfold remove_background_flood_fill. apply flood_loop_shape. Qed.
End Dimensions.

(** C8.  Each of the three background-removal strategies returns an image
    whose height and width (indeed the length of every row) equal those of
    its input. *)
Theorem strategies_preserve_dimensions (promo : promotion) (img : image) :
  let same_dimensions (out : image) :=
    height out = height img ∧ width out = width img
    ∧ row_lengths out = row_lengths img in
  same_dimensions (remove_checkerboard_background img)
  ∧ same_dimensions (remove_white_gray_background img)
  ∧ same_dimensions (remove_background_flood_fill promo img).
Proof.
  pose proof (remove_checkerboard_shape img) as H1.
  pose proof (remove_white_gray_shape 40 img) as H2.
  pose proof (remove_flood_fill_shape promo img) as H3.
  simpl. repeat split;
    first [ by apply height_shape | by apply width_shape | done ].
Qed.

(** ** Termination of the edge flood fill *)

Section FloodTermination.
Context (promo : promotion) (h w : nat).
Implicit Types (st : flood_state) (v : list (list bool)).

Definition count_false (row : list bool) : nat :=
  sum_list ((λ b : bool, if b then 0 else 1)%nat <$> row).

(** The number of cells not yet marked in [visited]. *)
Definition unvisited v : nat := sum_list (count_false <$> v).

(** The variant of the loop: every iteration either shortens the queue or
    marks a new cell, after which at most nine entries are appended. *)
Definition flood_measure st : nat :=
  (10 * unvisited (visited st) + length (queue st))%nat.

Lemma count_false_insert row j :
  row !! j = Some false → (count_false (<[j := true]> row) + 1 = count_false row)%nat.
Proof.
  unfold count_false. revert j. induction row as [|b row IH]; intros [|j] Hj;
    simplify_eq/=; [lia|].
  specialize (IH j Hj). lia.
Qed.

Lemma unvisited_set2 v y x :
  inside v y x → get2 false v y x = false →
  (unvisited (set2 v y x true) + 1 = unvisited v)%nat.
Proof.
  unfold inside, get2, set2, unvisited. revert y.
  induction v as [|row v IH]; intros [|y]; simpl; try (intros []; done).
  - intros [b Hb] Hget. rewrite Hb in Hget. simpl in Hget. subst b.
    pose proof (count_false_insert row x Hb) as Hrow. unfold fmap in *. lia.
  - intros Hin Hget. specialize (IH y Hin Hget). unfold fmap, alter in *. lia.
Qed.

Lemma unvisited_full n m : unvisited (full n m false) = (n * m)%nat.
Proof.
  unfold unvisited, full. induction n as [|n IH]; csimpl; [done|].
  rewrite IH. f_equal. unfold count_false. clear IH.
  induction m as [|m IH]; csimpl; [done|]. by rewrite IH.
Qed.

Lemma get2_set2_true v y x y' x' :
  get2 false v y' x' = true → get2 false (set2 v y x true) y' x' = true.
Proof.
  intros Hget. destruct (decide ((y, x) = (y', x'))) as [[= <- <-]|Hne].
  - apply get2_set2_eq. destruct (decide (inside v y x)) as [|Hout]; [done|].
    rewrite (get2_outside _ _ _ _ Hout) in Hget. done.
  - by rewrite get2_set2_ne.
Qed.

(** The cells of the [h] by [w] grid, and 8-adjacency (a cell counts as
    adjacent to itself). *)
Definition in_grid (c : nat * nat) : Prop := (c.1 < h)%nat ∧ (c.2 < w)%nat.

Definition adjacent (c c' : nat * nat) : Prop :=
  Z.abs (Z.of_nat c'.1 - Z.of_nat c.1) ≤ 1 ∧ Z.abs (Z.of_nat c'.2 - Z.of_nat c.2) ≤ 1.

(** What the neighbour loops may append for the popped cell [c]. *)
Definition neighbor_of (c c' : nat * nat) : Prop := in_grid c' ∧ adjacent c c'.

Lemma visit_neighbor_queue res visit seed y x q dy dx :
  dy ∈ offsets → dx ∈ offsets →
  ∃ added, visit_neighbor promo h w res visit seed y x q dy dx = q ++ added
           ∧ (length added ≤ 1)%nat ∧ Forall (neighbor_of (y, x)) added.
Proof.
  intros Hdy Hdx. unfold visit_neighbor.
  destruct ((0 <=? Z.of_nat y + dy) && (Z.of_nat y + dy <? Z.of_nat h)
            && (0 <=? Z.of_nat x + dx) && (Z.of_nat x + dx <? Z.of_nat w)
            && negb (get2 false visit (Z.to_nat (Z.of_nat y + dy))
                           (Z.to_nat (Z.of_nat x + dx)))) eqn:Hguard; simpl.
  2:{ exists []. rewrite app_nil_r. repeat split; [simpl; lia | constructor]. }
  case_match.
  2:{ exists []. rewrite app_nil_r. repeat split; [simpl; lia | constructor]. }
  eexists [_]. repeat split; [simpl; lia|].
  constructor; [|constructor].
  repeat (apply andb_prop in Hguard as [Hguard ?]).
  unfold offsets in Hdy, Hdx.
  repeat (apply elem_of_cons in Hdy as [->|Hdy]); try (by apply elem_of_nil in Hdy);
  repeat (apply elem_of_cons in Hdx as [->|Hdx]); try (by apply elem_of_nil in Hdx);
    unfold neighbor_of, in_grid, adjacent; simpl; lia.
Qed.

(** A loop whose body appends at most [k] cells satisfying [P] appends at
    most [k] such cells per element. *)
Lemma foldl_appends {B} (P : nat * nat → Prop)
  (f : list (nat * nat) → B → list (nat * nat)) (k : nat) (l : list B) q :
  (∀ q x, x ∈ l → ∃ added, f q x = q ++ added ∧ (length added ≤ k)%nat ∧ Forall P added) →
  ∃ added, foldl f q l = q ++ added
           ∧ (length added ≤ k * length l)%nat ∧ Forall P added.
Proof.
  revert q. induction l as [|x l IH]; intros q Hf; simpl.
  { exists []. rewrite app_nil_r. repeat split; [simpl; lia | constructor]. }
  destruct (Hf q x) as (a1 & -> & ? & ?); [left|].
  destruct (IH (q ++ a1)) as (a2 & -> & ? & ?).
  { intros q0 x0 Hx0. apply Hf. by right. }
  exists (a1 ++ a2). rewrite <- app_assoc, length_app. repeat split; [lia|].
  by apply Forall_app.
Qed.

(** The three outcomes of an iteration: the popped cell was marked already
    (skip); it is marked now and is not light (wall); it is marked, made
    transparent, and neighbours are appended (fill). *)
Lemma flood_step_spec st st' :
  flood_step promo h w st = Some st' →
  ∃ y x q', queue st = (y, x) :: q' ∧
    ((get2 false (visited st) y x = true
      ∧ st' = FloodState (result st) (visited st) q')
     ∨ (get2 false (visited st) y x = false
        ∧ all_above 180 (get2 transparent (result st) y x) = false
        ∧ st' = FloodState (result st) (set2 (visited st) y x true) q')
     ∨ (get2 false (visited st) y x = false
        ∧ all_above 180 (get2 transparent (result st) y x) = true
        ∧ ∃ added,
            st' = FloodState (set2 (result st) y x transparent)
                             (set2 (visited st) y x true) (q' ++ added)
            ∧ (length added ≤ 9)%nat ∧ Forall (neighbor_of (y, x)) added)).
Proof.
  unfold flood_step, all_above. destruct (queue st) as [|[y x] q']; [done|].
  intros Hstep. exists y, x, q'. split; [done|].
  destruct (get2 false (visited st) y x); [left; by simplify_eq|]. right.
  cbn beta iota zeta in Hstep.
  destruct ((180 <? red (get2 transparent (result st) y x))
            && (180 <? green (get2 transparent (result st) y x))
            && (180 <? blue (get2 transparent (result st) y x))); cbn [negb] in Hstep.
  2:{ left. by simplify_eq. }
  right. do 2 (split; [done|]).
  destruct (foldl_appends (neighbor_of (y, x))
              (λ q dy, foldl (λ q dx,
                 visit_neighbor promo h w (set2 (result st) y x transparent)
                                (set2 (visited st) y x true) (y, x) y x q dy dx)
                 q offsets) 3 offsets q') as (added & Hadded & Hlen & Hall).
  { intros q dy Hdy. apply (foldl_appends _ _ 1 offsets). intros q0 dx Hdx.
    by apply visit_neighbor_queue. }
  exists added. split; [|split; [exact Hlen | exact Hall]].
  injection Hstep as <-. f_equal. exact Hadded.
Qed.

Lemma flood_step_queue st st' :
  flood_step promo h w st = Some st' →
  ∃ added, queue st' = tail (queue st) ++ added
           ∧ (length added ≤ 9)%nat ∧ Forall in_grid added.
Proof.
  intros (y & x & q' & -> & [[_ ->]|[(_ & _ & ->)|(_ & _ & added & -> & ? & Hall)]])
    %flood_step_spec; simpl.
  1,2: exists []; rewrite app_nil_r; repeat split; [simpl; lia | constructor].
  exists added. repeat split; [done|].
  revert Hall. apply Forall_impl. by intros c [? _].
Qed.

(** The shape of a state: [visited] is an [h] by [w] array and every queued
    cell lies in the grid, so no index of the loop is out of range. *)
Definition flood_wf st : Prop :=
  row_lengths (visited st) = row_lengths (full h w false)
  ∧ Forall in_grid (queue st).

Lemma flood_wf_inside st c : flood_wf st → in_grid c → inside (visited st) c.1 c.2.
Proof.
  intros [Hshape _] [? ?]. apply (proj2 (inside_shape _ _ _ _ Hshape)). by apply inside_full.
Qed.

(** What an iteration does to [visited]: nothing when the popped cell is
    marked already, otherwise it marks the popped cell. *)
Lemma flood_step_cases st st' :
  flood_step promo h w st = Some st' →
  ∃ y x q', queue st = (y, x) :: q'
    ∧ ((get2 false (visited st) y x = true
        ∧ st' = FloodState (result st) (visited st) q')
       ∨ (get2 false (visited st) y x = false
          ∧ visited st' = set2 (visited st) y x true)).
Proof.
  intros (y & x & q' & Hq & [[? ->]|[(? & _ & ->)|(? & _ & added & -> & _)]])
    %flood_step_spec; exists y, x, q'; eauto.
Qed.

Lemma flood_step_wf st st' :
  flood_wf st → flood_step promo h w st = Some st' → flood_wf st'.
Proof.
  intros [Hshape Hqueue] Hstep. split.
  - destruct (flood_step_shape _ _ _ _ _ Hstep) as [_ ->]. done.
  - destruct (flood_step_queue _ _ Hstep) as (added & -> & _ & Hadded).
    apply Forall_app. split; [|done].
    destruct (queue st); [done|]. by eapply Forall_cons_1.
Qed.

Lemma flood_step_visited_mono st st' y x :
  flood_step promo h w st = Some st' →
  get2 false (visited st) y x = true → get2 false (visited st') y x = true.
Proof.
  intros (y0 & x0 & q' & _ & [[_ ->]|[_ Hv]])%flood_step_cases; [done|].
  rewrite Hv. apply get2_set2_true.
Qed.

Lemma flood_step_decreases st st' :
  flood_wf st → flood_step promo h w st = Some st' →
  (flood_measure st' < flood_measure st)%nat.
Proof.
  intros Hwf Hstep. unfold flood_measure.
  destruct (flood_step_queue _ _ Hstep) as (added & Hq & Hlen & _).
  destruct (flood_step_cases _ _ Hstep) as (y & x & q' & Hpop & [[_ ->]|[Hnew Hv]]).
  - rewrite Hpop. simpl. lia.
  - assert (inside (visited st) y x) as Hin.
    { apply (flood_wf_inside st (y, x) Hwf). destruct Hwf as [_ Hall].
      rewrite Hpop in Hall. by eapply Forall_cons_1. }
    pose proof (unvisited_set2 _ _ _ Hin Hnew) as Hcount.
    rewrite Hq, Hv, Hpop, length_app. simpl.
    revert Hcount Hlen. generalize (unvisited (set2 (visited st) y x true)).
    generalize (unvisited (visited st)) (length added) (length q'). clear. lia.
Qed.

(** With fuel for the variant, the loop leaves through [while queue:]. *)
Lemma flood_loop_empties fuel st :
  flood_wf st → (flood_measure st ≤ fuel)%nat →
  queue (flood_loop promo h w fuel st) = [].
Proof.
  revert st. induction fuel as [|fuel IH]; intros st Hwf Hfuel.
  - simpl. unfold flood_measure in Hfuel.
    destruct (queue st); [done | simpl in Hfuel; lia].
  - simpl. destruct (flood_step promo h w st) as [st'|] eqn:Hstep.
    + apply IH; [by eapply flood_step_wf|].
      pose proof (flood_step_decreases _ _ Hwf Hstep). lia.
    + unfold flood_step in Hstep. destruct (queue st) as [|[y x] q']; [done|].
      repeat case_match; done.
Qed.

(** Once the queue is empty, further fuel changes nothing. *)
Lemma flood_loop_stable fuel fuel' st :
  queue (flood_loop promo h w fuel st) = [] → (fuel ≤ fuel')%nat →
  flood_loop promo h w fuel' st = flood_loop promo h w fuel st.
Proof.
  revert fuel' st. induction fuel as [|fuel IH]; intros fuel' st Hq Hle.
  - simpl in *. destruct fuel'; [done|]. simpl. unfold flood_step. by rewrite Hq.
  - destruct fuel' as [|fuel']; [lia|]. simpl in *.
    destruct (flood_step promo h w st); [|done]. apply IH; [done | lia].
Qed.

End FloodTermination.

Section FloodRun.
Context (promo : promotion) (h w : nat).
Implicit Types (st : flood_state) (c : nat * nat).

(** The cell that the next iteration processes: the head of the queue,
    when it is not marked yet (a marked head is skipped by [continue]). *)
Definition next_processed st : option (nat * nat) :=
  match queue st with
  | [] => None
  | (y, x) :: _ => if get2 false (visited st) y x then None else Some (y, x)
  end.

(** The cells processed by the first [fuel] iterations, in order. *)
Fixpoint flood_processed (fuel : nat) st : list (nat * nat) :=
  match fuel with
  | O => []
  | S fuel' =>
    match flood_step promo h w st with
    | Some st' => option_list (next_processed st) ++ flood_processed fuel' st'
    | None => []
    end
  end.

Lemma flood_processed_unvisited fuel st c :
  c ∈ flood_processed fuel st → get2 false (visited st) c.1 c.2 = false.
Proof.
  revert st. induction fuel as [|fuel IH]; intros st; simpl; [by intros ?%elem_of_nil|].
  destruct (flood_step promo h w st) as [st'|] eqn:Hstep; [|by intros ?%elem_of_nil].
  intros [Hc|Hc]%elem_of_app.
  - unfold next_processed in Hc. destruct (queue st) as [|[y x] q]; [by apply elem_of_nil in Hc|].
    destruct (get2 false (visited st) y x) eqn:Hv; simpl in Hc.
    + by apply elem_of_nil in Hc.
    + apply list_elem_of_singleton in Hc as ->. done.
  - specialize (IH _ Hc).
    destruct (get2 false (visited st) c.1 c.2) eqn:Hv; [|done].
    by rewrite (flood_step_visited_mono _ _ _ _ _ _ _ Hstep Hv) in IH.
Qed.

Lemma flood_processed_NoDup fuel st :
  flood_wf h w st → NoDup (flood_processed fuel st).
Proof.
  revert st. induction fuel as [|fuel IH]; intros st Hwf; simpl; [constructor|].
  destruct (flood_step promo h w st) as [st'|] eqn:Hstep; [|constructor].
  pose proof (flood_step_wf _ _ _ _ _ Hwf Hstep) as Hwf'.
  destruct (next_processed st) as [c|] eqn:Hnext; simpl; [|by apply IH].
  constructor; [|by apply IH].
  intros Hc%flood_processed_unvisited.
  unfold next_processed in Hnext. destruct Hwf as [Hshape Hall].
  destruct (flood_step_cases _ _ _ _ _ Hstep) as (y & x & q' & Hpop & Hcases).
  rewrite Hpop in Hnext, Hall. apply Forall_cons_1 in Hall as [Hgrid _].
  destruct Hcases as [[Hv _]|[Hv Hv']]; rewrite Hv in Hnext; simplify_eq/=.
  rewrite Hv', get2_set2_eq in Hc; [done|].
  apply (proj2 (inside_shape _ _ _ _ Hshape)). apply inside_full. exact Hgrid.
Qed.
End FloodRun.

Lemma edge_pixels_in_grid h w : Forall (in_grid h w) (edge_pixels h w).
Proof.
  unfold edge_pixels.
  apply (for2_invariant (Forall (in_grid h w))); [constructor|].
  intros i j q Hi Hj Hq. case_match; [|done].
  apply Forall_app. split; [done|]. constructor; [by split | constructor].
Qed.

Lemma flood_init_wf (img : image) : flood_wf (height img) (width img) (flood_init img).
Proof. split; [done | apply edge_pixels_in_grid]. Qed.

Lemma flood_init_measure (img : image) :
  flood_measure (flood_init img) = flood_fuel (height img) (width img).
Proof. unfold flood_measure, flood_fuel. simpl. by rewrite unvisited_full. Qed.

(** C9.  The flood-fill loop terminates on every image: the queue is empty
    after at most [flood_fuel] iterations, which is what the function
    returns and what any larger number of iterations gives; an iteration
    never unmarks a visited cell; and no cell is processed twice. *)
Theorem flood_fill_terminates (promo : promotion) (img : image) :
  let h := height img in
  let w := width img in
  let final := flood_loop promo h w (flood_fuel h w) (flood_init img) in
  queue final = []
  ∧ flood_step promo h w final = None
  ∧ remove_background_flood_fill promo img = result final
  ∧ (∀ fuel, (flood_fuel h w ≤ fuel)%nat →
       flood_loop promo h w fuel (flood_init img) = final)
  ∧ (∀ st st' y x, flood_step promo h w st = Some st' →
       get2 false (visited st) y x = true → get2 false (visited st') y x = true)
  ∧ NoDup (flood_processed promo h w (flood_fuel h w) (flood_init img)).
Proof.
  intros h w final.
  assert (queue final = []) as Hq.
  { apply flood_loop_empties; [apply flood_init_wf|]. by rewrite flood_init_measure. }
  split; [done|]. split; [unfold flood_step; by rewrite Hq|]. split; [done|].
  split; [intros fuel Hfuel; by apply flood_loop_stable|].
  split; [intros st st' y x; apply flood_step_visited_mono|].
  apply flood_processed_NoDup, flood_init_wf.
Qed.

(** ** The edge flood fill respects walls *)

Section FloodConnectivity.
Context (promo : promotion) (img : image).

(** [r > 180 and g > 180 and b > 180] for the pixel of the source image. *)
Definition light_at (c : nat * nat) : bool :=
  all_above 180 (get2 transparent img c.1 c.2).

Definition on_border (c : nat * nat) : Prop :=
  in_grid (height img) (width img) c
  ∧ is_edge (height img) (width img) c.1 c.2 = true.

(** [border_path l c]: [l] lists the cells of an 8-connected path of the
    image that starts on its border and ends in [c]. *)
Inductive border_path : list (nat * nat) → nat * nat → Prop :=
  | border_path_start c : on_border c → border_path [c] c
  | border_path_step l c c' :
      border_path l c → neighbor_of (height img) (width img) c c' →
      border_path (l ++ [c']) c'.

(** Cells joined to the border by a path of light pixels. *)
Inductive light_reachable : nat * nat → Prop :=
  | light_reachable_border c : on_border c → light_at c = true → light_reachable c
  | light_reachable_step c c' :
      light_reachable c → neighbor_of (height img) (width img) c c' →
      light_at c' = true → light_reachable c'.

Lemma light_reachable_path c :
  light_reachable c → ∃ l, border_path l c ∧ Forall (λ q, light_at q = true) l.
Proof.
  induction 1 as [c Hb Hl | c c' _ (l & Hpath & Hall) Hn Hl].
  - exists [c]. split; [by constructor | by repeat constructor].
  - exists (l ++ [c']). split; [by econstructor|].
    apply Forall_app. split; [done | by repeat constructor].
Qed.

(** The invariant of the loop: a pixel that differs from the source is
    joined to the border by light pixels, and a queued cell is a border
    cell or a neighbour of such a pixel. *)
Definition flood_conn (st : flood_state) : Prop :=
  (∀ c, get2 transparent (result st) c.1 c.2 = get2 transparent img c.1 c.2
        ∨ light_reachable c)
  ∧ Forall (λ c, on_border c
                 ∨ ∃ c0, light_reachable c0 ∧ neighbor_of (height img) (width img) c0 c)
           (queue st).

Lemma edge_pixels_on_border : Forall on_border (edge_pixels (height img) (width img)).
Proof.
  unfold edge_pixels. apply (for2_invariant (Forall on_border)); [constructor|].
  intros i j q Hi Hj Hq. destruct (is_edge _ _ i j) eqn:Hedge; [|done].
  apply Forall_app. split; [done|]. constructor; [|constructor]. by repeat split.
Qed.

Lemma flood_conn_init : flood_conn (flood_init img).
Proof.
  split; [by left|]. simpl.
  eapply Forall_impl; [|apply edge_pixels_on_border]. by left.
Qed.

Lemma flood_conn_step st st' :
  flood_conn st → flood_step promo (height img) (width img) st = Some st' →
  flood_conn st'.
Proof.
  intros [Hres Hqueue]
    (y & x & q' & Hpop & [[_ ->]|[(_ & _ & ->)|(_ & Hlight & added & -> & _ & Hadded)]])
    %flood_step_spec;
    rewrite Hpop in Hqueue; apply Forall_cons_1 in Hqueue as [Hhead Htail];
    try (split; done).
  assert (light_reachable (y, x)) as Hreach.
  { destruct (Hres (y, x)) as [Hsame|?]; [|done]. simpl in Hsame.
    assert (light_at (y, x) = true) as Hl by (unfold light_at; simpl; by rewrite <- Hsame).
    destruct Hhead as [?|(c0 & ? & ?)]; [by constructor | by econstructor]. }
  split; simpl.
  - intros c. destruct (decide ((y, x) = c)) as [<-|Hne]; [by right|].
    destruct c as [y' x']. rewrite get2_set2_ne by done. apply Hres.
  - apply Forall_app. split; [done|].
    revert Hadded. apply Forall_impl. intros c Hc. right. eauto.
Qed.

Lemma flood_conn_loop fuel st :
  flood_conn st → flood_conn (flood_loop promo (height img) (width img) fuel st).
Proof.
  revert st. induction fuel as [|fuel IH]; intros st Hst; simpl; [done|].
  destruct (flood_step _ _ _ st) as [st'|] eqn:Hstep; [|done].
  by eapply IH, flood_conn_step.
Qed.

Lemma flood_fill_changes_reachable c :
  get2 transparent (remove_background_flood_fill promo img) c.1 c.2
    ≠ get2 transparent img c.1 c.2 →
  light_reachable c.
Proof.
  intros Hne. unfold remove_background_flood_fill in Hne.
  destruct (flood_conn_loop (flood_fuel (height img) (width img)) _ flood_conn_init)
    as [Hres _].
  destruct (Hres c); done.
Qed.
End FloodConnectivity.

(** C5.  The edge flood fill leaves untouched every pixel that the border
    reaches only through walls: when every 8-connected path from a border
    pixel to [c] contains a pixel that is not light (some channel at most
    180), the output has at [c] the value of the input. *)
Theorem flood_fill_respects_walls (promo : promotion) (img : image) (c : nat * nat) :
  (∀ l, border_path img l c → Exists (λ q, light_at img q = false) l) →
  get2 transparent (remove_background_flood_fill promo img) c.1 c.2
  = get2 transparent img c.1 c.2.
Proof.
  intros Hwalls.
  destruct (decide (get2 transparent (remove_background_flood_fill promo img) c.1 c.2
                    = get2 transparent img c.1 c.2)) as [|Hne]; [done|].
  apply flood_fill_changes_reachable, light_reachable_path in Hne as (l & Hpath & Hall).
  apply Hwalls, Exists_exists in Hpath as (q & Hq & Hdark).
  rewrite Forall_forall in Hall. specialize (Hall q Hq). congruence.
Qed.

(** A checkable criterion for the hypothesis of the theorem above:
    a region [inner] that contains no border cell and is entered only
    through pixels that are not light. *)
Definition cells (h w : nat) : list (nat * nat) :=
  i ← seq 0 h; j ← seq 0 w; [(i, j)].

Definition adjacentb (c c' : nat * nat) : bool :=
  (Z.abs (Z.of_nat c'.1 - Z.of_nat c.1) <=? 1)
  && (Z.abs (Z.of_nat c'.2 - Z.of_nat c.2) <=? 1).

Definition walled_in (img : image) (inner : nat * nat → bool) : bool :=
  let grid := cells (height img) (width img) in
  forallb (λ c, implb (is_edge (height img) (width img) c.1 c.2) (negb (inner c))) grid
  && forallb (λ c, forallb (λ c',
        implb (adjacentb c c' && negb (inner c) && inner c') (negb (light_at img c')))
        grid) grid.

Lemma elem_of_cells h w c : c ∈ cells h w ↔ in_grid h w c.
Proof.
  unfold cells, in_grid. destruct c as [i j]. simpl. rewrite list_elem_of_bind. split.
  - intros (i' & (j' & [= -> ->]%list_elem_of_singleton & ?%elem_of_seq)%list_elem_of_bind
                & ?%elem_of_seq). lia.
  - intros [? ?]. exists i. split; [|apply elem_of_seq; lia].
    apply list_elem_of_bind. exists j. split; [by apply list_elem_of_singleton|].
    apply elem_of_seq. lia.
Qed.

Lemma border_path_in_grid img l c :
  border_path img l c → in_grid (height img) (width img) c.
Proof. by intros [c0 [? _]|l0 c0 c' _ [? _]]. Qed.

Lemma walls_separate img inner l c :
  walled_in img inner = true → border_path img l c → inner c = true →
  Exists (λ q, light_at img q = false) l.
Proof.
  unfold walled_in. intros [Hedge Hcross]%andb_prop Hpath.
  rewrite forallb_forall in Hedge, Hcross.
  induction Hpath as [c [Hgrid Hc]|l c c' Hpath IH [Hgrid' Hadj]]; intros Hin.
  - apply elem_of_cells, list_elem_of_In, Hedge in Hgrid.
    rewrite Hc, Hin in Hgrid. done.
  - apply Exists_app. destruct (inner c) eqn:Hc; [left; by apply IH|right].
    apply border_path_in_grid, elem_of_cells, list_elem_of_In, Hcross in Hpath.
    rewrite forallb_forall in Hpath.
    apply elem_of_cells, list_elem_of_In, Hpath in Hgrid'.
    assert (adjacentb c c' = true) as Hadjb.
    { unfold adjacentb. destruct Hadj. apply andb_true_intro. split; lia. }
    rewrite Hadjb, Hc, Hin in Hgrid'. simpl in Hgrid'.
    constructor. by destruct (light_at img c').
Qed.

(** A light pixel enclosed by a ring of black pixels, in a light frame. *)
Definition enclosed_pixel : image :=
  let o := RGBA 255 255 255 255 in
  let x := RGBA 0 0 0 255 in
  [ [o; o; o; o; o];
    [o; x; x; x; o];
    [o; x; o; x; o];
    [o; x; x; x; o];
    [o; o; o; o; o] ].

Lemma flood_fill_respects_walls_witness :
  (∀ l, border_path enclosed_pixel l (2, 2)%nat →
        Exists (λ q, light_at enclosed_pixel q = false) l)
  ∧ get2 transparent (remove_background_flood_fill Weak enclosed_pixel) 2 2
    = RGBA 255 255 255 255.
Proof.
  assert (∀ l, border_path enclosed_pixel l (2, 2)%nat →
               Exists (λ q, light_at enclosed_pixel q = false) l) as Hwalls.
  { intros l Hl.
    apply (walls_separate enclosed_pixel
             (λ c, (1 <=? c.1)%nat && (c.1 <=? 3)%nat && (1 <=? c.2)%nat && (c.2 <=? 3)%nat)
             l (2, 2)%nat); [vm_compute; reflexivity | exact Hl | reflexivity]. }
  split; [exact Hwalls|].
  exact (flood_fill_respects_walls Weak enclosed_pixel (2, 2)%nat Hwalls).
Defined.

(** The frame of [enclosed_pixel] is cleared, the ring and the pixel inside
    it are kept. *)
Example flood_fill_enclosed_pixel promo :
  remove_background_flood_fill promo enclosed_pixel =
  let t := transparent in
  let o := RGBA 255 255 255 255 in
  let x := RGBA 0 0 0 255 in
  [ [t; t; t; t; t];
    [t; x; x; x; t];
    [t; x; o; x; t];
    [t; x; x; x; t];
    [t; t; t; t; t] ].
Proof. destruct promo; vm_compute; reflexivity. Qed.

(** ** The order of binary64 numbers *)

Section FloatOrder.

Lemma SFcompare_Lt_finite s1 m1 e1 s2 m2 e2 :
  SFcompare (S754_finite s1 m1 e1) (S754_finite s2 m2 e2) = Some Lt ↔
  match s1, s2 with
  | true, false => True
  | false, true => False
  | false, false => e1 < e2 ∨ (e1 = e2 ∧ (m1 < m2)%positive)
  | true, true => e2 < e1 ∨ (e1 = e2 ∧ (m2 < m1)%positive)
  end.
Proof.
  simpl. destruct s1, s2; try (split; [done | intros []]); try (split; done).
  - destruct (Z.compare_spec e1 e2) as [->|?|?].
    + change (Pos.compare_cont Eq m1 m2) with (m1 ?= m2)%positive.
      destruct (Pos.compare_spec m1 m2); simpl; split; try done; try lia;
        intros _; right; split; done || lia.
    + split; [intros ?; discriminate | lia].
    + split; [intros _; by left | done].
  - destruct (Z.compare_spec e1 e2) as [->|?|?].
    + change (Pos.compare_cont Eq m1 m2) with (m1 ?= m2)%positive.
      destruct (Pos.compare_spec m1 m2); simpl; split; try done; try lia;
        intros _; right; split; done || lia.
    + split; [intros _; by left | done].
    + split; [intros ?; discriminate | lia].
Qed.

Lemma SFltb_trans x y z : SFltb x y = true → SFltb y z = true → SFltb x z = true.
Proof.
  unfold SFltb.
  destruct (SFcompare x y) as [[]|] eqn:Hxy; try done.
  destruct (SFcompare y z) as [[]|] eqn:Hyz; try done. intros _ _.
  assert (SFcompare x z = Some Lt) as ->; [|done].
  destruct x as [sx|sx| |sx mx ex], y as [sy|sy| |sy my ey], z as [sz|sz| |sz mz ez];
    try discriminate;
    try (destruct sx, sy, sz; simpl in *; congruence).
  apply SFcompare_Lt_finite in Hxy, Hyz. apply SFcompare_Lt_finite.
  destruct sx, sy, sz; try done; lia.
Qed.

Lemma SFltb_irrefl x : SFltb x x = false.
Proof.
  unfold SFltb. destruct x as [[]|[]| |[] m e]; simpl; try done;
    rewrite Z.compare_refl;
    change (Pos.compare_cont Eq m m) with (m ?= m)%positive;
    by rewrite Pos.compare_refl.
Qed.

(** [<] on floats is a strict order (it never holds for a NaN). *)
Lemma flt_trans x y z : flt x y = true → flt y z = true → flt x z = true.
Proof. unfold flt. rewrite !FloatAxioms.ltb_spec. apply SFltb_trans. Qed.

Lemma flt_irrefl x : flt x x = false.
Proof. unfold flt. rewrite FloatAxioms.ltb_spec. apply SFltb_irrefl. Qed.

End FloatOrder.

(** ** The best-result selector *)

Section Selector.
Context (promo : promotion) (img : image).

(** The transparency ratio of a strategy's result, whether the selector
    accepts it, and whether a ratio is strictly closer to 0.5 than
    another. *)
Definition ratio_of (m : method) : float :=
  calculate_transparency_ratio (apply_method promo m img).

Definition accepted (m : method) : bool := in_band (ratio_of m).

Definition closer (ratio ratio' : float) : bool :=
  flt (off_half ratio) (off_half ratio').

(** The state of the loop after the methods [seen]: nothing is selected
    when none of them is accepted; otherwise the selected one is accepted,
    its result is the output, and no accepted one is closer to 0.5. *)
Definition selected (seen : list method) (sel : selection) : Prop :=
  match best_method sel with
  | None => best_result sel = None ∧ ∀ m, m ∈ seen → accepted m = false
  | Some m =>
    m ∈ seen ∧ accepted m = true
    ∧ best_result sel = Some (ratio_of m)
    ∧ output sel = Some (apply_method promo m img)
    ∧ ∀ m', m' ∈ seen → accepted m' = true → closer (ratio_of m') (ratio_of m) = false
  end.

Lemma try_method_selected seen sel m :
  selected seen sel → selected (seen ++ [m]) (try_method promo img sel m).
Proof.
  assert (m ∈ seen ++ [m]) as Hlast by (apply elem_of_app; right; by left).
  assert (∀ m', m' ∈ seen → m' ∈ seen ++ [m]) as Hold by (intros; apply elem_of_app; by left).
  unfold selected, try_method, remove_complex_background. simpl.
  fold (ratio_of m). fold (accepted m).
  destruct (accepted m) eqn:Hm.
  2:{ destruct (best_method sel) as [mb|].
      - intros (? & ? & ? & ? & Hbest). repeat split; [by apply Hold | done..|].
        intros m' [?| ->%list_elem_of_singleton]%elem_of_app ?; [by apply Hbest | congruence].
      - intros [? Hnone]. split; [done|].
        intros m' [?| ->%list_elem_of_singleton]%elem_of_app; [by apply Hnone | done]. }
  destruct (best_method sel) as [mb|] eqn:Hmb.
  - intros (Hin & Hacc & Hres & Hout & Hbest). rewrite Hres.
    fold (closer (ratio_of m) (ratio_of mb)).
    destruct (closer (ratio_of m) (ratio_of mb)) eqn:Hcloser; simpl.
    + repeat split; [done..|].
      intros m' [Hm'| ->%list_elem_of_singleton]%elem_of_app Hacc'; [|apply flt_irrefl].
      specialize (Hbest m' Hm' Hacc').
      destruct (closer (ratio_of m') (ratio_of m)) eqn:Hc; [|done].
      unfold closer in *. by rewrite (flt_trans _ _ _ Hc Hcloser) in Hbest.
    + rewrite Hmb. repeat split; [by apply Hold | done..|].
      intros m' [?| ->%list_elem_of_singleton]%elem_of_app ?; [by apply Hbest | done].
  - intros [Hres Hnone]. rewrite Hres. simpl. repeat split; [done..|].
    intros m' [Hm'| ->%list_elem_of_singleton]%elem_of_app Hacc'; [|apply flt_irrefl].
    by rewrite (Hnone m' Hm') in Hacc'.
Qed.

Lemma foldl_try_method_selected l seen sel :
  selected seen sel → selected (seen ++ l) (foldl (try_method promo img) sel l).
Proof.
  revert seen sel. induction l as [|m l IH]; intros seen sel Hsel; simpl.
  - by rewrite app_nil_r.
  - rewrite (cons_middle m seen l), app_assoc. by apply IH, try_method_selected.
Qed.

Lemma all_methods m : m ∈ methods.
Proof. unfold methods. destruct m; rewrite !elem_of_cons; auto. Qed.

End Selector.

(** What the loop and the fallback return together. *)
Lemma selector_outcome (promo : promotion) (img : image) :
  ∃ out, process_single_cat_image promo img = Some out
    ∧ ((∃ m, accepted promo img m = true) →
       ∃ m, accepted promo img m = true
            ∧ out = apply_method promo m img
            ∧ ∀ m', accepted promo img m' = true →
                    closer (ratio_of promo img m') (ratio_of promo img m) = false)
    ∧ ((∀ m, accepted promo img m = false) →
       out = remove_white_gray_background img).
Proof.
  assert (selected promo img methods
            (foldl (try_method promo img) (Selection None None None) methods)) as Hsel.
  { apply (foldl_try_method_selected promo img methods []).
    split; [done|]. by intros m ?%elem_of_nil. }
  unfold process_single_cat_image.
  destruct (best_method (foldl _ _ methods)) as [mb|] eqn:Hmb.
  - unfold selected in Hsel. rewrite Hmb in Hsel.
    destruct Hsel as (_ & Hacc & _ & -> & Hbest).
    eexists. split; [done|]. split.
    + intros _. exists mb. repeat split; [done|]. intros m' ?.
      apply Hbest; [apply all_methods | done].
    + intros Hnone. by rewrite Hnone in Hacc.
  - unfold selected in Hsel. rewrite Hmb in Hsel.
    destruct Hsel as [_ Hnone].
    eexists. split; [done|]. split; [|done].
    intros [m Hm]. by rewrite (Hnone m (all_methods m)) in Hm.
Qed.

(** C1.  The selector accepts a strategy's result only when its transparency
    ratio is strictly between 0.3 and 0.8.  When some result is accepted,
    the output is an accepted result, with ratio [r], such that no accepted
    result has a ratio [r'] with [|r' - 0.5| < |r - 0.5|]; when none is
    accepted, the output is the white_gray result, whatever its ratio. *)
Theorem best_result_selector (promo : promotion) (img : image) :
  let ratio m := calculate_transparency_ratio (apply_method promo m img) in
  let in_range m :=
    PrimFloat.ltb 0.3%float (ratio m) && PrimFloat.ltb (ratio m) 0.8%float in
  let distance m := PrimFloat.abs (PrimFloat.sub (ratio m) 0.5%float) in
  (∀ m, accepted promo img m = true ↔
        PrimFloat.ltb 0.3%float (ratio m) = true
        ∧ PrimFloat.ltb (ratio m) 0.8%float = true)
  ∧ ∃ out, process_single_cat_image promo img = Some out
    ∧ ((∃ m, in_range m = true) →
       ∃ m, in_range m = true
            ∧ out = apply_method promo m img
            ∧ ∀ m', in_range m' = true →
                    PrimFloat.ltb (distance m') (distance m) = false)
    ∧ ((∀ m, in_range m = false) →
       out = remove_white_gray_background img).
Proof.
  intros ratio in_range distance. split.
  - intros m. unfold accepted, in_band, flt. apply andb_true_iff.
  - destruct (selector_outcome promo img) as (out & Hout & Hsome & Hnone).
    exists out. split; [exact Hout|]. split.
    + intros [m Hm]. destruct Hsome as (best & Hbest & Hres & Hclosest).
      { exists m. exact Hm. }
      exists best. split; [exact Hbest|]. split; [exact Hres|].
      intros m' Hm'. exact (Hclosest m' Hm').
    + intros Hnot. apply Hnone. intros m. exact (Hnot m).
Qed.

(** One row of ten pixels, five of them transparent, two white and three
    black.  The checkerboard and the flood-fill strategies clear the two
    white pixels (ratio 0.7); the white_gray strategy changes nothing
    (ratio 0.5). *)
Definition half_clear : image :=
  let t := transparent in
  let w := RGBA 255 255 255 255 in
  let b := RGBA 0 0 0 255 in
  [ [t; t; t; t; t; w; w; b; b; b] ].

(** All three results are accepted; the checkerboard result is tried
    first, and the white_gray result, closer to 0.5, replaces it. *)
Lemma best_result_selector_witness :
  process_single_cat_image Weak half_clear = Some half_clear.
Proof.
  destruct (best_result_selector Weak half_clear) as (_ & out & -> & Hsome & _).
  destruct Hsome as (m & _ & -> & Hclosest).
  { exists WhiteGray. vm_compute. reflexivity. }
  pose proof (Hclosest WhiteGray ltac:(vm_compute; reflexivity)) as Hfar.
  destruct m; [vm_compute in Hfar; discriminate Hfar | vm_compute; reflexivity
              | vm_compute in Hfar; discriminate Hfar].
Defined.

(** ** Loops that rewrite an array position by position *)

Section Sweep.
Context {A : Type} (d : A) (upd : nat → nat → A → A).
Implicit Types (s : list (list A)).

(** [s[i, j] = upd(i, j, s[i, j])] *)
Definition write_at (i j : nat) s : list (list A) :=
  set2 s i j (upd i j (get2 d s i j)).

Definition row_sweep (i : nat) (xs : list nat) s : list (list A) :=
  foldl (λ s j, write_at i j s) s xs.

(** [for i in ys: for j in xs: s[i, j] = upd(i, j, s[i, j])] *)
Definition sweep (ys xs : list nat) s : list (list A) :=
  foldl (λ s i, row_sweep i xs s) s ys.

Lemma set2_get2_id s i j : set2 s i j (get2 d s i j) = s.
Proof.
  unfold set2, get2. apply list_eq. intros k.
  destruct (decide (i = k)) as [<-|?]; [|by rewrite list_lookup_alter_ne].
  rewrite list_lookup_alter_eq. destruct (s !! i) as [row|]; simpl; [|done].
  f_equal. destruct (row !! j) as [a|] eqn:Hj; simpl.
  - by apply list_insert_id.
  - apply list_insert_ge. by apply lookup_ge_None.
Qed.

Lemma row_sweep_shape i xs s : row_lengths (row_sweep i xs s) = row_lengths s.
Proof.
  unfold row_sweep. apply (foldl_invariant (λ s', row_lengths s' = row_lengths s)); [done|].
  intros s' j _ Hs'. unfold write_at. by rewrite row_lengths_set2.
Qed.

Lemma sweep_shape ys xs s : row_lengths (sweep ys xs s) = row_lengths s.
Proof.
  unfold sweep. apply (foldl_invariant (λ s', row_lengths s' = row_lengths s)); [done|].
  intros s' i _ Hs'. by rewrite row_sweep_shape.
Qed.

Lemma row_sweep_out i xs s i' j' :
  i' ≠ i ∨ j' ∉ xs → get2 d (row_sweep i xs s) i' j' = get2 d s i' j'.
Proof.
  revert s. induction xs as [|x xs IH]; intros s Hout; simpl; [done|].
  rewrite IH.
  - unfold write_at. apply get2_set2_ne. intros [= -> ->].
    destruct Hout as [?|Hout]; [done|]. apply Hout. left.
  - destruct Hout as [?|Hout]; [by left|right]. intros ?. apply Hout. by right.
Qed.

Lemma row_sweep_in i xs s j :
  NoDup xs → j ∈ xs → inside s i j →
  get2 d (row_sweep i xs s) i j = upd i j (get2 d s i j).
Proof.
  revert s. induction xs as [|x xs IH]; intros s Hnodup Hj Hin; [by apply elem_of_nil in Hj|].
  apply list.NoDup_cons in Hnodup as [Hx Hnodup]. simpl.
  apply elem_of_cons in Hj as [->|Hj].
  - rewrite row_sweep_out by (by right). unfold write_at. by apply get2_set2_eq.
  - assert (x ≠ j) by (by intros ->).
    rewrite IH; [|done..|].
    + unfold write_at. rewrite get2_set2_ne; [done | congruence].
    + unfold write_at.
      by apply (proj2 (inside_shape s _ i j (row_lengths_set2 _ _ _ _))).
Qed.

Lemma sweep_out ys xs s i j :
  ¬ (i ∈ ys ∧ j ∈ xs) → get2 d (sweep ys xs s) i j = get2 d s i j.
Proof.
  revert s. unfold sweep. induction ys as [|y ys IH]; intros s Hout; simpl; [done|].
  rewrite IH.
  - apply row_sweep_out. destruct (decide (i = y)) as [->|?]; [right|by left].
    intros ?. apply Hout. split; [left | done].
  - intros [? ?]. apply Hout. split; [by right | done].
Qed.

Lemma sweep_in ys xs s i j :
  NoDup ys → NoDup xs → i ∈ ys → j ∈ xs → inside s i j →
  get2 d (sweep ys xs s) i j = upd i j (get2 d s i j).
Proof.
  revert s. unfold sweep.
  induction ys as [|y ys IH]; intros s Hys Hxs Hi Hj Hin; [by apply elem_of_nil in Hi|].
  apply list.NoDup_cons in Hys as [Hy Hys]. simpl.
  apply elem_of_cons in Hi as [->|Hi].
  - fold (sweep ys xs (row_sweep y xs s)).
    rewrite sweep_out by (by intros [? _]). by apply row_sweep_in.
  - assert (i ≠ y) by (by intros ->).
    rewrite IH; [|done..|].
    + by rewrite row_sweep_out by (by left).
    + by apply (proj2 (inside_shape s _ i j (row_sweep_shape _ _ _))).
Qed.
End Sweep.

Lemma foldl_ext {A B} (f g : A → B → A) (l : list B) (a : A) :
  (∀ a b, b ∈ l → f a b = g a b) → foldl f a l = foldl g a l.
Proof.
  revert a. induction l as [|b l IH]; intros a Hfg; simpl; [done|].
  rewrite Hfg by left. apply IH. intros a' b' ?. apply Hfg. by right.
Qed.

(** Rows all as long as the first: the arrays of the imaging libraries. *)
Definition rectangular {A} (arr : list (list A)) : Prop :=
  Forall (λ row, length row = width arr) arr.

Lemma rectangular_inside {A} (arr : list (list A)) i j :
  rectangular arr → inside arr i j ↔ (i < height arr)%nat ∧ (j < width arr)%nat.
Proof.
  unfold rectangular, inside, height. intros Hrect. split.
  - intros [a Ha]. apply bind_Some in Ha as (row & Hrow & Ha).
    split; [by eapply lookup_lt_Some|].
    rewrite Forall_lookup in Hrect. rewrite <- (Hrect _ _ Hrow). by eapply lookup_lt_Some.
  - intros [Hi Hj]. destruct (lookup_lt_is_Some_2 arr i Hi) as [row Hrow].
    rewrite Hrow. simpl. apply lookup_lt_is_Some.
    rewrite Forall_lookup in Hrect. by rewrite (Hrect _ _ Hrow).
Qed.

(** ** Edge cleanup *)

Section EdgeCleanup.
Context (img : image).

(** The eight neighbours of an interior position, and how many of them are
    transparent in the image. *)
Definition neighbors8 (y x : nat) : list (nat * nat) :=
  [ (y - 1, x - 1); (y - 1, x); (y - 1, x + 1);
    (y, x - 1); (y, x + 1);
    (y + 1, x - 1); (y + 1, x); (y + 1, x + 1) ]%nat.

Definition transparent_count (y x : nat) : nat :=
  length (filter (λ c, alpha (get2 transparent img c.1 c.2) = 0) (neighbors8 y x)).

(** The test under which [cleanup_edges] overwrites the pixel at [(x, y)]. *)
Definition cleanup_cond (y x : nat) : bool :=
  let p := get2 transparent img y x in
  (0 <? alpha p) && (6 <=? ProcessCat.transparent_neighbors img x y)
  && ((180 <? red p) && (180 <? green p) && (180 <? blue p)).

Lemma foldl_count {B} (f : B → Z) (l : list B) (n : Z) :
  foldl (λ n b, if f b =? 0 then n + 1 else n) n l
  = n + Z.of_nat (length (filter (λ b, f b = 0) l)).
Proof.
  revert n. induction l as [|b l IH]; intros n; simpl; [lia|].
  rewrite IH, filter_cons. destruct (Z.eqb_spec (f b) 0) as [Hb|Hb].
  - rewrite decide_True by done. simpl. lia.
  - rewrite decide_False by done. done.
Qed.

Lemma transparent_neighbors_count y x :
  (1 ≤ y)%nat → (1 ≤ x)%nat →
  ProcessCat.transparent_neighbors img x y = Z.of_nat (transparent_count y x).
Proof.
  intros Hy Hx. unfold ProcessCat.transparent_neighbors, transparent_count.
  pose proof (foldl_count
    (λ o : Z * Z, alpha (get2 transparent img (Z.to_nat (Z.of_nat y + o.1))
                              (Z.to_nat (Z.of_nat x + o.2))))
    ProcessCat.neighbor_offsets 0) as Hcount.
  etrans; [etrans; [|exact Hcount]|].
  - apply foldl_ext. by intros n [dy dx] _.
  - rewrite Z.add_0_l. f_equal.
    change ProcessCat.neighbor_offsets
      with [(-1, -1); (-1, 0); (-1, 1); (0, -1); (0, 1); (1, -1); (1, 0); (1, 1)].
    unfold neighbors8. rewrite !filter_cons, !filter_nil. simpl.
    replace (Z.to_nat (Z.of_nat y + -1)) with (y - 1)%nat by lia.
    replace (Z.to_nat (Z.of_nat x + -1)) with (x - 1)%nat by lia.
    replace (Z.to_nat (Z.of_nat y + 0)) with y by lia.
    replace (Z.to_nat (Z.of_nat x + 0)) with x by lia.
    replace (Z.to_nat (Z.of_nat y + 1)) with (y + 1)%nat by lia.
    replace (Z.to_nat (Z.of_nat x + 1)) with (x + 1)%nat by lia.
    repeat case_decide; reflexivity.
Qed.

Lemma cleanup_edges_sweep :
  ProcessCat.cleanup_edges img
  = sweep transparent (λ y x cur, if cleanup_cond y x then transparent else cur)
          (seq 1 (height img - 2)) (seq 1 (width img - 2)) img.
Proof.
  unfold ProcessCat.cleanup_edges, sweep, row_sweep.
  apply foldl_ext. intros result y _. apply foldl_ext. intros result' x _.
  unfold write_at, cleanup_cond. cbv zeta.
  destruct (0 <? alpha _), (6 <=? _),
    ((180 <? red _) && (180 <? green _) && (180 <? blue _));
    simpl; by rewrite ?set2_get2_id.
Qed.

Lemma cleanup_edges_interior y x :
  rectangular img →
  (1 ≤ y < height img - 1)%nat → (1 ≤ x < width img - 1)%nat →
  get2 transparent (ProcessCat.cleanup_edges img) y x
  = if cleanup_cond y x then transparent else get2 transparent img y x.
Proof.
  intros Hrect Hy Hx. rewrite cleanup_edges_sweep.
  rewrite sweep_in; [done | apply NoDup_seq | apply NoDup_seq | | |].
  - apply elem_of_seq. lia.
  - apply elem_of_seq. lia.
  - apply rectangular_inside; [done | lia].
Qed.
End EdgeCleanup.

(** Scenario E: an opaque black pixel whose eight neighbours are
    transparent. *)
Definition lone_black_pixel : image :=
  let t := transparent in
  [ [t; t; t]; [t; RGBA 0 0 0 255; t]; [t; t; t] ].

(** C6.  For an interior pixel with alpha > 0, Edge Cleanup stores
    (0, 0, 0, 0) exactly when at least 6 of its 8 neighbours are
    transparent in the image given to the pass and its own R, G and B all
    exceed 180; otherwise the pixel is kept.  The pixel of Scenario E has 8
    transparent neighbours and is kept. *)
Theorem edge_cleanup_rule :
  (∀ (img : image) (y x : nat),
     rectangular img →
     (1 ≤ y < height img - 1)%nat → (1 ≤ x < width img - 1)%nat →
     0 < alpha (get2 transparent img y x) →
     let p := get2 transparent img y x in
     let out := get2 transparent (ProcessCat.cleanup_edges img) y x in
     let isolated_and_light :=
       (6 ≤ transparent_count img y x)%nat
       ∧ 180 < red p ∧ 180 < green p ∧ 180 < blue p in
     (alpha out = 0 ↔ isolated_and_light)
     ∧ (isolated_and_light → out = transparent)
     ∧ (¬ isolated_and_light → out = p))
  ∧ transparent_count lone_black_pixel 1 1 = 8%nat
  ∧ ProcessCat.cleanup_edges lone_black_pixel = lone_black_pixel.
Proof.
  split; [|split; vm_compute; reflexivity].
  intros img y x Hrect Hy Hx Halpha p out isolated_and_light.
  assert (cleanup_cond img y x = true ↔ isolated_and_light) as Hcond.
  { unfold cleanup_cond, isolated_and_light. fold p.
    rewrite transparent_neighbors_count by lia.
    rewrite !andb_true_iff, !Z.ltb_lt, Z.leb_le. fold p in Halpha.
    clear -Halpha. intuition lia. }
  assert (out = if cleanup_cond img y x then transparent else p) as Hout
    by (by apply cleanup_edges_interior).
  destruct (cleanup_cond img y x).
  - assert isolated_and_light by (by apply Hcond).
    rewrite Hout. split; [by split | split; [done | by intros ?]].
  - assert (¬ isolated_and_light) by (by intros ?%Hcond).
    rewrite Hout. split; [split; [|by intros ?] | split; [by intros ? | done]].
    intros ?. fold p in Halpha. lia.
Qed.

(** ** The pixel classifier *)

Section Classifier.

(** A channel value of a decoded RGBA pixel. *)
Definition channel (v : Z) : Prop := 0 ≤ v ≤ 255.

(** Rule 2 of the classifier: near-white and near-grayscale. *)
Definition near_white (r g b : Z) : bool :=
  (200 <? r) && (200 <? g) && (200 <? b)
  && (max3 (Z.abs (r - g)) (Z.abs (g - b)) (Z.abs (r - b)) <? 30).

(** Rule 3: [(r + g + b) / 3 > 180]. *)
Definition bright (r g b : Z) : bool := fgt (ProcessCat.brightness r g b) 180%float.

(** The classifier without rule 2. *)
Definition two_rule_classifier (r g b : Z) (background_colors : list (Z * Z * Z)) : bool :=
  existsb (ProcessCat.near 25 r g b) background_colors || bright r g b.

Lemma bright_table :
  forallb (λ s, Bool.eqb (fgt (PrimFloat.div (float_of_Z s) 3%float) 180%float) (540 <? s))
          (Z.of_nat <$> seq 0 766) = true.
Proof. vm_compute. reflexivity. Qed.

(** In binary64, a third of an integer sum of three channels exceeds 180
    exactly when the sum exceeds 540. *)
Lemma bright_iff r g b :
  channel r → channel g → channel b → bright r g b = (540 <? r + g + b).
Proof.
  unfold channel, bright, ProcessCat.brightness. intros Hr Hg Hb.
  pose proof bright_table as Htable. rewrite forallb_forall in Htable.
  specialize (Htable (r + g + b)). apply Bool.eqb_prop, Htable.
  apply list_elem_of_In, list_elem_of_fmap. exists (Z.to_nat (r + g + b)).
  split; [lia|]. apply elem_of_seq. lia.
Qed.
End Classifier.

(** C10.  For every pixel and every set of background colours,
    [is_background_pixel] with tolerance 25 answers as the classifier made
    of the background-colour rule and the brightness rule alone: it accepts
    exactly the pixels within 25 per channel of a background colour or with
    (r + g + b) / 3 above 180, because a pixel that passes the near-white
    rule passes the brightness rule. *)
Theorem near_white_rule_redundant (r g b : Z) (background_colors : list (Z * Z * Z)) :
  channel r → channel g → channel b →
  ProcessCat.is_background_pixel r g b background_colors
  = two_rule_classifier r g b background_colors
  ∧ (ProcessCat.is_background_pixel r g b background_colors = true ↔
     (∃ bg_r bg_g bg_b, (bg_r, bg_g, bg_b) ∈ background_colors
        ∧ Z.abs (r - bg_r) < 25 ∧ Z.abs (g - bg_g) < 25 ∧ Z.abs (b - bg_b) < 25)
     ∨ bright r g b = true)
  ∧ (near_white r g b = true → bright r g b = true)
  ∧ (bright r g b = true ↔ 180 * 3 < r + g + b).
Proof.
  intros Hr Hg Hb.
  assert (near_white r g b = true → bright r g b = true) as Hnw.
  { rewrite (bright_iff r g b Hr Hg Hb).
    unfold near_white. rewrite !andb_true_iff, !Z.ltb_lt. lia. }
  assert (ProcessCat.is_background_pixel r g b background_colors
          = two_rule_classifier r g b background_colors) as Heq.
  { unfold ProcessCat.is_background_pixel, ProcessCat.is_background_pixel_tol,
      two_rule_classifier.
    fold (near_white r g b). fold (bright r g b).
    destruct (existsb _ _); [done|]. simpl.
    destruct (near_white r g b); [by rewrite Hnw | by destruct (bright r g b)]. }
  split; [done|]. split; [|split; [done|]].
  - rewrite Heq. unfold two_rule_classifier. rewrite orb_true_iff, existsb_exists.
    apply or_iff_compat_r. split.
    + intros ([[bg_r bg_g] bg_b] & Hin%list_elem_of_In & Hnear).
      exists bg_r, bg_g, bg_b. split; [done|].
      unfold ProcessCat.near in Hnear. rewrite !andb_true_iff, !Z.ltb_lt in Hnear. tauto.
    + intros (bg_r & bg_g & bg_b & Hin%list_elem_of_In & ? & ? & ?).
      exists (bg_r, bg_g, bg_b). split; [done|].
      unfold ProcessCat.near. rewrite !andb_true_iff, !Z.ltb_lt. tauto.
  - rewrite (bright_iff r g b Hr Hg Hb), Z.ltb_lt. lia.
Qed.

Lemma near_white_rule_redundant_witness :
  channel 250 ∧ channel 240 ∧ channel 230
  ∧ ProcessCat.is_background_pixel 250 240 230 [(0, 0, 0)]
    = two_rule_classifier 250 240 230 [(0, 0, 0)]
  ∧ (near_white 250 240 230 = true → bright 250 240 230 = true).
Proof.
  assert (channel 250 ∧ channel 240 ∧ channel 230) as (Hr & Hg & Hb)
    by (unfold channel; lia).
  pose proof (near_white_rule_redundant 250 240 230 [(0, 0, 0)] Hr Hg Hb)
    as (Heq & _ & Hnw & _).
  repeat split; first [exact Heq | exact Hnw | apply Hr | apply Hg | apply Hb].
Defined.

(** ** The white/gray strategy on uint8 pixels *)

Section WhiteGray.

Lemma u8_brightness_table :
  forallb (λ s, negb (fgt (PrimFloat.div (float_of_Z s) 3%float) 180%float))
          (Z.of_nat <$> seq 0 256) = true.
Proof. vm_compute. reflexivity. Qed.

(** The uint8 sum [r + g + b] is at most 255, so the brightness computed
    from it is at most 85 and never exceeds 180. *)
Lemma brightness_never_above_180 (p : pixel) : fgt (brightness p) 180%float = false.
Proof.
  unfold brightness, u8_add.
  set (s := (((red p + green p) mod 256 + blue p) mod 256)).
  assert (0 ≤ s < 256) as Hs by (apply Z.mod_pos_bound; lia).
  pose proof u8_brightness_table as Htable. rewrite forallb_forall in Htable.
  apply negb_true_iff, Htable.
  apply list_elem_of_In, list_elem_of_fmap. exists (Z.to_nat s).
  split; [lia|]. apply elem_of_seq. lia.
Qed.

(** Hence the strategy changes no pixel at all, whatever the tolerance. *)
Lemma white_gray_removes_nothing (tolerance : Z) (img : image) :
  remove_white_gray_background_tol tolerance img = img.
Proof.
  unfold remove_white_gray_background_tol.
  apply (for2_invariant (λ r : image, r = img)); [done|].
  intros i j r _ _ ->. cbv zeta beta iota.
  by rewrite brightness_never_above_180, andb_false_r.
Qed.
End WhiteGray.

(** Scenario A: a 64 by 64 image, every pixel (255, 255, 255, 255). *)
Definition white_64 : image := full 64 64 (RGBA 255 255 255 255).

Lemma white_64_checkerboard :
  remove_checkerboard_background white_64 = full 64 64 transparent.
Proof. vm_compute. reflexivity. Qed.

Lemma white_64_flood_fill (promo : promotion) :
  remove_background_flood_fill promo white_64 = full 64 64 transparent.
Proof. destruct promo; vm_compute; reflexivity. Qed.

Lemma white_64_ratios :
  calculate_transparency_ratio white_64 = 0%float
  ∧ calculate_transparency_ratio (full 64 64 transparent) = 1%float.
Proof. vm_compute. split; reflexivity. Qed.

(** C2, as the code runs.  On the white image the white/gray strategy
    clears nothing: its result is the input and its transparency ratio is
    0.0.  The checkerboard and flood-fill results have ratio 1.0; all three
    are outside the band, and the selector returns the white/gray result,
    which is fully opaque. *)
Theorem white_image_white_gray_result (promo : promotion) :
  remove_white_gray_background white_64 = white_64
  ∧ calculate_transparency_ratio (remove_white_gray_background white_64) = 0%float
  ∧ calculate_transparency_ratio (remove_checkerboard_background white_64) = 1%float
  ∧ calculate_transparency_ratio (remove_background_flood_fill promo white_64) = 1%float
  ∧ (∀ m, accepted promo white_64 m = false)
  ∧ process_single_cat_image promo white_64 = Some white_64.
Proof.
  destruct white_64_ratios as [Hzero Hone].
  assert (remove_white_gray_background white_64 = white_64) as Hwg
    by apply white_gray_removes_nothing.
  assert (∀ m, ratio_of promo white_64 m = match m with WhiteGray => 0 | _ => 1 end%float)
    as Hratio.
  { intros []; unfold ratio_of, apply_method;
      by rewrite ?Hwg, ?white_64_checkerboard, ?white_64_flood_fill. }
  assert (∀ m, accepted promo white_64 m = false) as Hrejected.
  { intros m. unfold accepted. rewrite Hratio. by destruct m. }
  split; [done|]. split; [by rewrite Hwg|].
  split; [by rewrite white_64_checkerboard|].
  split; [by rewrite white_64_flood_fill|]. split; [done|].
  destruct (selector_outcome promo white_64) as (out & -> & _ & Hfallback).
  by rewrite (Hfallback Hrejected), Hwg.
Qed.

(** ** The propagation rule of the flood fill *)

Section Propagation.

(** The view [seed_color] reads the pixel that the iteration has just
    overwritten: inside the neighbour loops it is (0, 0, 0). *)
Lemma seed_view_cleared (res : image) (y x : nat) :
  inside res y x → rgb (set2 res y x transparent) (y, x) = [0; 0; 0].
Proof. intros Hin. unfold rgb. simpl. by rewrite get2_set2_eq. Qed.

(** The rule as the specification words it: the neighbours of the popped
    cell, in loop order, that are in bounds, not visited, and whose summed
    absolute channel difference from the colour the cell had when popped is
    below 60.  [res] and [vis] are the arrays when the cell is popped. *)
Definition similar_to_seed (res : image) (y x : nat) (c : nat * nat) : bool :=
  let s := get2 transparent res y x in
  let n := get2 transparent res c.1 c.2 in
  Z.abs (red s - red n) + Z.abs (green s - green n) + Z.abs (blue s - blue n) <? 60.

Definition specified_neighbors (h w : nat) (res : image) (vis : list (list bool))
  (y x : nat) : list (nat * nat) :=
  dy ← offsets; dx ← offsets;
  let ny := Z.of_nat y + dy in
  let nx := Z.of_nat x + dx in
  if (0 <=? ny) && (ny <? Z.of_nat h) && (0 <=? nx) && (nx <? Z.of_nat w)
     && negb (bool_decide (dy = 0 ∧ dx = 0))
     && negb (get2 false vis (Z.to_nat ny) (Z.to_nat nx))
     && similar_to_seed res y x (Z.to_nat ny, Z.to_nat nx)
  then [(Z.to_nat ny, Z.to_nat nx)] else [].

End Propagation.

(** A 3 by 3 image of one light gray, (200, 200, 200, 255). *)
Definition gray_3 : image := full 3 3 (RGBA 200 200 200 255).

(** C3, as the code runs.  The first iteration on [gray_3] pops the light
    pixel (0, 0) and clears it, and appends nothing to the queue, although
    its three neighbours are in bounds, unvisited and of the very colour it
    had when popped: the difference is taken from the cleared pixel, with
    uint8 wrap-around (3 * 56 = 168).  The centre pixel, which the
    specified rule reaches, is therefore never queued and stays opaque. *)
Theorem flood_step_compares_with_cleared_seed (promo : promotion) :
  flood_step promo 3 3 (flood_init gray_3)
  = Some (FloodState (set2 gray_3 0 0 transparent)
                     (set2 (full 3 3 false) 0 0 true)
                     (tail (edge_pixels 3 3)))
  ∧ specified_neighbors 3 3 gray_3 (full 3 3 false) 0 0
    = [(0, 1); (1, 0); (1, 1)]%nat
  ∧ color_diff promo (rgb (set2 gray_3 0 0 transparent) (0, 0)%nat)
                     (rgb (set2 gray_3 0 0 transparent) (0, 1)%nat) = 168
  ∧ get2 transparent (remove_background_flood_fill promo gray_3) 1 1
    = RGBA 200 200 200 255.
Proof. destruct promo; vm_compute; repeat split; reflexivity. Qed.

(** ** Scenario B: four 4 by 4 quadrants *)

(** The 8 by 8 image whose quadrants (upper left, upper right, lower left,
    lower right) are filled with the given pixels. *)
Definition quadrants (ul ur ll lr : pixel) : image :=
  replicate 4 (replicate 4 ul ++ replicate 4 ur)
  ++ replicate 4 (replicate 4 ll ++ replicate 4 lr).

Definition white : pixel := RGBA 255 255 255 255.
Definition black : pixel := RGBA 0 0 0 255.

(** White and black quadrants in checkerboard arrangement. *)
Definition scenario_b : image := quadrants white black black white.

(** Every 2 by 2 block of the detector lies inside one quadrant, so none
    has cross contrast and no corner has a checkerboard pattern. *)
Lemma scenario_b_corners :
  forallb (λ corner, negb (has_checkerboard_pattern corner)) (corner_samples scenario_b)
  = true.
Proof. vm_compute. reflexivity. Qed.

(** C4 as stated fails: the detector does not answer checkerboard on the
    quadrant image. *)
Lemma scenario_b_not_checkerboard :
  ¬ (detect_background_type scenario_b = Some Checkerboard
     ∧ remove_checkerboard_background scenario_b
       = quadrants transparent black black transparent).
Proof. intros [Hdetect _]. vm_compute in Hdetect. discriminate. Qed.

(** C4, amended.  The detector classifies the quadrant image as edge_flood
    (half of the sampled pixels are light, no corner has a checkerboard
    pattern); the checkerboard strategy keeps every pixel of the black
    quadrants opaque and unchanged and makes every pixel of the white
    quadrants transparent.  The same holds for the mirrored arrangement. *)
Theorem scenario_b_detection_and_removal :
  detect_background_type scenario_b = Some EdgeFlood
  ∧ remove_checkerboard_background scenario_b
    = quadrants transparent black black transparent
  ∧ detect_background_type (quadrants black white white black) = Some EdgeFlood
  ∧ remove_checkerboard_background (quadrants black white white black)
    = quadrants black transparent transparent black.
Proof. vm_compute. repeat split; reflexivity. Qed.

(** ** The layout of sprite sheets *)

Section Paste.
Context (paste_pixel : pixel → pixel → pixel).
Implicit Types (sheet frame : image).

Lemma paste_sweep sheet frame x y :
  paste paste_pixel sheet frame x y
  = sweep transparent
          (λ r c cur, paste_pixel cur (get2 transparent frame (r - y) (c - x)))
          (seq y (height frame)) (seq x (width frame)) sheet.
Proof.
  unfold paste, for2, sweep, row_sweep.
  replace (seq y (height frame)) with (Nat.add y <$> seq 0 (height frame))
    by (by rewrite fmap_add_seq, Nat.add_0_r).
  rewrite foldl_fmap.
  apply foldl_ext. intros s dy _.
  replace (seq x (width frame)) with (Nat.add x <$> seq 0 (width frame))
    by (by rewrite fmap_add_seq, Nat.add_0_r).
  rewrite foldl_fmap.
  apply foldl_ext. intros s' dx _. unfold write_at.
  by replace (y + dy - y)%nat with dy by lia; replace (x + dx - x)%nat with dx by lia.
Qed.

Lemma paste_shape sheet frame x y :
  row_lengths (paste paste_pixel sheet frame x y) = row_lengths sheet.
Proof. rewrite paste_sweep. apply sweep_shape. Qed.

(** Inside the pasted region a sheet pixel is blended with the frame pixel
    that lands on it; outside, the sheet is unchanged. *)
Lemma paste_in sheet frame x y dy dx :
  (dy < height frame)%nat → (dx < width frame)%nat →
  inside sheet (y + dy) (x + dx) →
  get2 transparent (paste paste_pixel sheet frame x y) (y + dy) (x + dx)
  = paste_pixel (get2 transparent sheet (y + dy) (x + dx))
                (get2 transparent frame dy dx).
Proof.
  intros Hdy Hdx Hin. rewrite paste_sweep.
  rewrite sweep_in; [|apply NoDup_seq..| | |done].
  - by replace (y + dy - y)%nat with dy by lia; replace (x + dx - x)%nat with dx by lia.
  - apply elem_of_seq. lia.
  - apply elem_of_seq. lia.
Qed.

Lemma paste_out sheet frame x y r c :
  ¬ ((y ≤ r < y + height frame)%nat ∧ (x ≤ c < x + width frame)%nat) →
  get2 transparent (paste paste_pixel sheet frame x y) r c = get2 transparent sheet r c.
Proof.
  intros Hout. rewrite paste_sweep. apply sweep_out.
  rewrite !elem_of_seq. intros [? ?]. apply Hout. lia.
Qed.
End Paste.

Section SheetLayout.
Context (resize : nat * nat → image → image) (paste_pixel : pixel → pixel → pixel).
Context (columns fw fh : nat).

(** What the cell of a frame shows at offset [(dx, dy)]: the frame pixel
    blended over the transparent fill when the file exists, nothing
    otherwise. *)
Definition cell_pixel (file : option (option image)) (dy dx : nat) : pixel :=
  match file with
  | Some (Some img) =>
    paste_pixel transparent (get2 transparent (resize (fw, fh) img) dy dx)
  | _ => transparent
  end.

(** The body of [for i, image_path in enumerate(image_paths)]. *)
Definition place_frame (sheet : image) (entry : nat * option image) : image :=
  match entry.2 with
  | None => sheet
  | Some img =>
    paste paste_pixel sheet (resize (fw, fh) img)
          (entry.1 mod columns * fw) (entry.1 / columns * fh)
  end.

(** Two cells of the grid do not overlap. *)
Lemma cells_disjoint i k dy dx :
  (0 < columns)%nat → i ≠ k → (dy < fh)%nat → (dx < fw)%nat →
  ¬ ((k / columns * fh ≤ i / columns * fh + dy < k / columns * fh + fh)%nat
     ∧ (k mod columns * fw ≤ i mod columns * fw + dx < k mod columns * fw + fw)%nat).
Proof.
  intros Hc Hne Hdy Hdx [Hrow Hcol]. apply Hne.
  assert (i / columns = k / columns)%nat as Hq by nia.
  assert (i mod columns = k mod columns)%nat as Hr by nia.
  rewrite (Nat.div_mod_eq i columns), (Nat.div_mod_eq k columns). by rewrite Hq, Hr.
Qed.

Lemma cell_inside rows i dy dx (sheet : image) :
  (0 < columns)%nat →
  row_lengths sheet = row_lengths (full (rows * fh) (columns * fw) transparent) →
  (i < rows * columns)%nat → (dy < fh)%nat → (dx < fw)%nat →
  inside sheet (i / columns * fh + dy) (i mod columns * fw + dx).
Proof.
  intros Hc Hshape Hi Hdy Hdx. apply (proj2 (inside_shape _ _ _ _ Hshape)).
  apply inside_full.
  assert (i / columns < rows)%nat by (apply Nat.Div0.div_lt_upper_bound; lia).
  assert (i mod columns < columns)%nat by (apply Nat.mod_upper_bound; lia).
  split; nia.
Qed.

Lemma sheet_fold rows (files : list (option image)) :
  (0 < columns)%nat →
  (∀ img, height (resize (fw, fh) img) = fh ∧ width (resize (fw, fh) img) = fw) →
  (length files ≤ rows * columns)%nat →
  let sheet := foldl place_frame (full (rows * fh) (columns * fw) transparent)
                     (imap pair files) in
  row_lengths sheet = row_lengths (full (rows * fh) (columns * fw) transparent)
  ∧ ∀ i dy dx, (i < rows * columns)%nat → (dy < fh)%nat → (dx < fw)%nat →
      get2 transparent sheet (i / columns * fh + dy) (i mod columns * fw + dx)
      = cell_pixel (files !! i) dy dx.
Proof.
  intros Hc Hresize. induction files as [|file files IH] using rev_ind; intros Hlen sheet.
  - split; [done|]. intros i dy dx Hi Hdy Hdx. subst sheet. simpl.
    apply get2_full.
    + assert (i / columns < rows)%nat by (apply Nat.Div0.div_lt_upper_bound; lia). nia.
    + assert (i mod columns < columns)%nat by (apply Nat.mod_upper_bound; lia). nia.
  - rewrite length_app in Hlen. simpl in Hlen.
    destruct IH as [Hshape Hcells]; [lia|].
    subst sheet. rewrite imap_app, foldl_app. simpl. rewrite Nat.add_0_r.
    set (prev := foldl place_frame _ (imap pair files)) in *.
    destruct file as [img|]; unfold place_frame; cbn [fst snd].
    + destruct (Hresize img) as [Hh Hw]. split; [by rewrite paste_shape|].
      intros i dy dx Hi Hdy Hdx.
      destruct (decide (i = length files)) as [->|Hne].
      * rewrite paste_in; [|by rewrite ?Hh, ?Hw..|by apply (cell_inside rows)].
        rewrite Hcells by (done || lia).
        rewrite list_lookup_middle by done.
        rewrite (lookup_ge_None_2 files (length files)) by lia. done.
      * rewrite paste_out by (rewrite Hh, Hw; by apply cells_disjoint).
        rewrite Hcells by done. f_equal.
        destruct (decide (i < length files)%nat).
        -- by rewrite lookup_app_l.
        -- rewrite (lookup_ge_None_2 files i) by lia.
           rewrite (lookup_ge_None_2 (files ++ [Some img]) i); [done|].
           rewrite length_app. simpl. lia.
    + split; [done|]. intros i dy dx Hi Hdy Hdx. rewrite Hcells by done.
      destruct (decide (i < length files)%nat); [by rewrite lookup_app_l|].
      rewrite (lookup_ge_None_2 files i) by lia.
      destruct (decide (i = length files)) as [->|].
      * by rewrite list_lookup_middle.
      * rewrite (lookup_ge_None_2 (files ++ [None]) i); [done|].
        rewrite length_app. simpl. lia.
Qed.

(** [(n + columns - 1) // columns] is the number of rows needed for [n]
    cells: the least [rows] with [n ≤ rows * columns]. *)
Lemma rows_ceiling n :
  (0 < columns)%nat →
  let rows := ((n + columns - 1) / columns)%nat in
  (n ≤ rows * columns < n + columns)%nat.
Proof.
  intros Hc rows. subst rows.
  pose proof (Nat.div_mod_eq (n + columns - 1) columns) as Hdm.
  pose proof (Nat.mod_upper_bound (n + columns - 1) columns) as Hm.
  nia.
Qed.
(** With a frame size that is not empty no [resize] raises: the loop is
    the fold of [place_frame]. *)
Lemma sheet_loop (entries : list (nat * option image)) (sheet : image) :
  (0 < fw)%nat → (0 < fh)%nat →
  foldl (λ sheet '(i, file),
           sheet ← sheet;
           match file with
           | None => Some sheet
           | Some img =>
             if (fw =? 0)%nat || (fh =? 0)%nat then None
             else Some (paste paste_pixel sheet (resize (fw, fh) img)
                              (i mod columns * fw) (i / columns * fh))
           end)
        (Some sheet) entries
  = Some (foldl place_frame sheet entries).
Proof.
  intros Hw Hh. revert sheet.
  induction entries as [|[i [img|]] entries IH]; intros sheet; simpl; [done| |].
  - destruct (Nat.eqb_spec fw 0); [lia|]. destruct (Nat.eqb_spec fh 0); [lia|].
    simpl. apply IH.
  - apply IH.
Qed.

(** A sheet is produced when there is a column, a frame and a frame size
    that is not empty: the fold of [place_frame] over the transparent
    fill. *)
Lemma create_sprite_sheet_assembled (files : list (option image)) :
  (0 < columns)%nat → (0 < fw)%nat → (0 < fh)%nat → files ≠ [] →
  create_sprite_sheet resize paste_pixel files columns fw fh
  = Some (foldl place_frame
                (full ((length files + columns - 1) / columns * fh) (columns * fw)
                      transparent)
                (imap pair files)).
Proof.
  intros Hc Hw Hh Hfiles. unfold create_sprite_sheet.
  destruct (Nat.eqb_spec columns 0) as [->|_]; [lia|]. cbv zeta.
  rewrite sheet_loop by done. cbn [mbind option_bind].
  pose proof (rows_ceiling (length files) Hc) as Hrows. cbv zeta in Hrows.
  assert (0 < length files)%nat by (destruct files; [done | simpl; lia]).
  destruct (Nat.eqb_spec (columns * fw) 0); [nia|].
  destruct (Nat.eqb_spec ((length files + columns - 1) / columns * fh) 0); [nia|].
  done.
Qed.

(** No sheet is produced exactly when there is no column, no frame or an
    empty frame size. *)
Lemma create_sprite_sheet_none (files : list (option image)) :
  create_sprite_sheet resize paste_pixel files columns fw fh = None
  ↔ columns = 0%nat ∨ files = [] ∨ fw = 0%nat ∨ fh = 0%nat.
Proof.
  split.
  - intros Hnone.
    destruct (decide (columns = 0%nat)); [by left|].
    destruct (decide (files = [])); [by right; left|].
    destruct (decide (fw = 0%nat)); [by right; right; left|].
    destruct (decide (fh = 0%nat)); [by right; right; right|].
    rewrite create_sprite_sheet_assembled in Hnone by (done || lia). done.
  - unfold create_sprite_sheet. intros [->|Hempty]; [done|].
    destruct (columns =? 0)%nat eqn:Hc; [done|]. apply Nat.eqb_neq in Hc. cbv zeta.
    destruct (foldl _ (Some _) (imap pair files)) as [sheet|]; [|done].
    cbn [mbind option_bind].
    destruct Hempty as [->|[->| ->]].
    + simpl. rewrite (Nat.div_small (columns - 1) columns) by lia.
      by rewrite orb_true_r.
    + by rewrite Nat.mul_0_r.
    + by rewrite Nat.mul_0_r, orb_true_r.
Qed.

(** The sheet, cell by cell. *)
Lemma create_sprite_sheet_cells (files : list (option image)) :
  (0 < columns)%nat → (0 < fw)%nat → (0 < fh)%nat → files ≠ [] →
  (∀ img, height (resize (fw, fh) img) = fh ∧ width (resize (fw, fh) img) = fw) →
  let rows := ((length files + columns - 1) / columns)%nat in
  ∃ sheet, create_sprite_sheet resize paste_pixel files columns fw fh = Some sheet
    ∧ row_lengths sheet = replicate (rows * fh) (columns * fw)%nat
    ∧ ∀ i dy dx, (i < rows * columns)%nat → (dy < fh)%nat → (dx < fw)%nat →
        get2 transparent sheet (i / columns * fh + dy) (i mod columns * fw + dx)
        = cell_pixel (files !! i) dy dx.
Proof.
  intros Hc Hw Hh Hfiles Hresize rows.
  pose proof (rows_ceiling (length files) Hc) as Hrows. cbv zeta in Hrows.
  fold rows in Hrows.
  destruct (sheet_fold rows files Hc Hresize) as [Hshape Hcells]; [exact (proj1 Hrows)|].
  exists (foldl place_frame (full (rows * fh) (columns * fw) transparent)
                (imap pair files)).
  split; [by apply create_sprite_sheet_assembled|].
  split; [|exact Hcells].
  rewrite Hshape. unfold row_lengths, full. by rewrite fmap_replicate, length_replicate.
Qed.
End SheetLayout.

(** C7.  With at least one column, at least one frame and a frame size
    that is not empty, the assembler produces a sheet of
    [columns * frame_width] by [rows * frame_height] pixels, where
    [rows = ceil(n / columns)] for [n] frames; the cell of frame [i], at
    column [i mod columns] and row [i div columns], holds the resized frame
    pasted over the transparent fill, and every other cell (a missing file,
    or an index past the last frame) is fully transparent.  With 10 frames
    and 4 columns the sheet has 3 rows, and the last two cells of the
    bottom row are transparent.  No sheet is produced exactly when there
    is no column, no frame, or a frame width or height of 0. *)
Theorem sprite_sheet_layout :
  (∀ (resize : nat * nat → image → image) (paste_pixel : pixel → pixel → pixel)
     (files : list (option image)) (columns fw fh : nat),
     (0 < columns)%nat → (0 < fw)%nat → (0 < fh)%nat → files ≠ [] →
     (∀ img, height (resize (fw, fh) img) = fh ∧ width (resize (fw, fh) img) = fw) →
     let n := length files in
     let rows := ((n + columns - 1) / columns)%nat in
     ∃ sheet, create_sprite_sheet resize paste_pixel files columns fw fh = Some sheet
       ∧ (n ≤ rows * columns < n + columns)%nat
       ∧ row_lengths sheet = replicate (rows * fh) (columns * fw)%nat
       ∧ height sheet = (rows * fh)%nat
       ∧ width sheet = (columns * fw)%nat
       ∧ ∀ i dy dx, (i < rows * columns)%nat → (dy < fh)%nat → (dx < fw)%nat →
           get2 transparent sheet (i / columns * fh + dy) (i mod columns * fw + dx)
           = cell_pixel resize paste_pixel fw fh (files !! i) dy dx)
  ∧ (∀ (resize : nat * nat → image → image) (paste_pixel : pixel → pixel → pixel)
       (files : list (option image)) (fw fh : nat),
       (0 < fw)%nat → (0 < fh)%nat → length files = 10%nat →
       (∀ img, height (resize (fw, fh) img) = fh ∧ width (resize (fw, fh) img) = fw) →
       ∃ sheet, create_sprite_sheet resize paste_pixel files 4 fw fh = Some sheet
         ∧ row_lengths sheet = replicate (3 * fh) (4 * fw)%nat
         ∧ ∀ col dy dx, (col = 2 ∨ col = 3)%nat → (dy < fh)%nat → (dx < fw)%nat →
             get2 transparent sheet (2 * fh + dy) (col * fw + dx) = transparent)
  ∧ (∀ (resize : nat * nat → image → image) (paste_pixel : pixel → pixel → pixel)
       (files : list (option image)) (columns fw fh : nat),
       create_sprite_sheet resize paste_pixel files columns fw fh = None
       ↔ columns = 0%nat ∨ files = [] ∨ fw = 0%nat ∨ fh = 0%nat).
Proof.
  split; [|split; [|intros; apply create_sprite_sheet_none]].
  - intros resize paste_pixel files columns fw fh Hc Hw Hh Hfiles Hresize n rows.
    pose proof (rows_ceiling columns n Hc) as Hrows. cbv zeta in Hrows. fold rows in Hrows.
    destruct (create_sprite_sheet_cells resize paste_pixel columns fw fh files
                Hc Hw Hh Hfiles Hresize) as (sheet & Hsheet & Hshape & Hcells).
    fold n rows in Hshape, Hcells.
    assert (0 < n)%nat as Hn by (subst n; destruct files; [done | simpl; lia]).
    assert (0 < rows)%nat as Hr by nia.
    exists sheet. split; [done|]. split; [done|]. split; [done|].
    split; [|split; [|exact Hcells]].
    + unfold height. rewrite <- (length_fmap length sheet).
      fold (row_lengths sheet). by rewrite Hshape, length_replicate.
    + destruct sheet as [|row sheet]; simpl in *.
      * destruct (rows * fh)%nat eqn:E; [nia | done].
      * destruct (rows * fh)%nat eqn:E; [done|]. simpl in Hshape. by injection Hshape.
  - intros resize paste_pixel files fw fh Hw Hh Hlen Hresize.
    assert (files ≠ []) as Hfiles by (by intros ->).
    destruct (create_sprite_sheet_cells resize paste_pixel 4%nat fw fh files)
      as (sheet & Hsheet & Hshape & Hcells); [lia | done..|].
    rewrite Hlen in Hshape, Hcells.
    change ((10 + 4 - 1) / 4)%nat with 3%nat in Hshape, Hcells.
    exists sheet. split; [done|]. split; [done|].
    intros col dy dx [-> | ->] Hdy Hdx.
    + etrans; [apply (Hcells 10%nat dy dx); [lia | done | done]|].
      by rewrite (lookup_ge_None_2 files 10) by lia.
    + etrans; [apply (Hcells 11%nat dy dx); [lia | done | done]|].
      by rewrite (lookup_ge_None_2 files 11) by lia.
Qed.

(** A stand-in for the resampling filter that has the size contract of
    [resize], and the paste of a fully opaque or fully transparent frame
    pixel. *)
Definition fill_resize (size : nat * nat) (img : image) : image :=
  full size.2 size.1 (get2 transparent img 0 0).

Definition copy_opaque (sheet_pixel frame_pixel : pixel) : pixel :=
  if alpha frame_pixel =? 0 then sheet_pixel else frame_pixel.

Lemma sprite_sheet_layout_witness :
  ∃ sheet,
    create_sprite_sheet fill_resize copy_opaque (replicate 10 (Some [[black]])) 4 2 2
    = Some sheet
    ∧ height sheet = 6%nat ∧ width sheet = 8%nat
    ∧ get2 transparent sheet 4 3 = black
    ∧ get2 transparent sheet 4 4 = transparent.
Proof.
  destruct (proj1 sprite_sheet_layout fill_resize copy_opaque
              (replicate 10 (Some [[black]])) 4%nat 2%nat 2%nat)
    as (sheet & Hsheet & _ & _ & Hheight & Hwidth & Hcells);
    [lia | lia | lia | discriminate | intros img; split; reflexivity |].
  exists sheet. split; [exact Hsheet|]. split; [exact Hheight|].
  split; [exact Hwidth|]. split.
  - exact (Hcells 9%nat 0%nat 1%nat ltac:(simpl; lia) ltac:(lia) ltac:(lia)).
  - exact (Hcells 10%nat 0%nat 0%nat ltac:(simpl; lia) ltac:(lia) ltac:(lia)).
Defined.

(** Scenario C on one-pixel frames: three rows of four cells, the last two
    cells empty. *)
Example sprite_sheet_ten_frames :
  create_sprite_sheet fill_resize copy_opaque (replicate 10 (Some [[black]])) 4 1 1
  = Some [ [black; black; black; black];
           [black; black; black; black];
           [black; black; transparent; transparent] ].
Proof. vm_compute. reflexivity. Qed.

(** An opaque white pixel whose eight neighbours are transparent: the
    cleanup clears it. *)
Definition lone_white_pixel : image :=
  let t := transparent in
  [ [t; t; t]; [t; white; t]; [t; t; t] ].

Lemma edge_cleanup_rule_witness :
  get2 transparent (ProcessCat.cleanup_edges lone_white_pixel) 1 1 = transparent.
Proof.
  destruct (proj1 edge_cleanup_rule lone_white_pixel 1%nat 1%nat) as (_ & Hclear & _).
  - repeat constructor.
  - simpl. lia.
  - simpl. lia.
  - simpl. lia.
  - apply Hclear. vm_compute. repeat split; first [lia | reflexivity].
Defined.

(** * Further properties *)

(** ** Arrays are determined by their shape and their entries *)

Lemma array_ext {A} (d : A) (a b : list (list A)) :
  row_lengths a = row_lengths b →
  (∀ i j, inside a i j → get2 d a i j = get2 d b i j) → a = b.
Proof.
  intros Hshape Hget. apply list_eq. intros i.
  assert (length <$> a !! i = length <$> b !! i) as Hlen.
  { unfold row_lengths in Hshape. by rewrite <- !list_lookup_fmap, Hshape. }
  destruct (a !! i) as [ra|] eqn:Ha, (b !! i) as [rb|] eqn:Hb; simplify_eq/=; [|done].
  f_equal. apply list_eq. intros j.
  destruct (ra !! j) as [x|] eqn:Hx.
  - assert (inside a i j) as Hin by (unfold inside; rewrite Ha; simpl; eauto).
    specialize (Hget i j Hin). unfold get2 in Hget. rewrite Ha, Hb in Hget.
    simpl in Hget. rewrite Hx in Hget. simpl in Hget.
    assert (is_Some (rb !! j)) as [y Hy].
    { apply lookup_lt_is_Some. rewrite <- Hlen. by eapply lookup_lt_Some. }
    rewrite Hy in Hget |- *. simpl in Hget. by subst.
  - symmetry. apply lookup_ge_None. rewrite <- Hlen. by apply lookup_ge_None.
Qed.

(** ** Edge cleanup: what the pass leaves alone *)

Section CleanupFrame.
Context (img : image).

Definition interior (y x : nat) : bool :=
  bool_decide ((1 ≤ y < height img - 1)%nat ∧ (1 ≤ x < width img - 1)%nat).

Lemma cleanup_edges_shape :
  row_lengths (ProcessCat.cleanup_edges img) = row_lengths img.
Proof. rewrite cleanup_edges_sweep. apply sweep_shape. Qed.

(** Every pixel of the result, inside or on the border. *)
Lemma cleanup_edges_pixel y x :
  get2 transparent (ProcessCat.cleanup_edges img) y x
  = if interior y x && cleanup_cond img y x then transparent
    else get2 transparent img y x.
Proof.
  rewrite cleanup_edges_sweep. unfold interior.
  destruct (decide (inside img y x)) as [Hin|Hout].
  - case_bool_decide as Hint; simpl.
    + rewrite sweep_in; [done | apply NoDup_seq.. | | | done]; apply elem_of_seq; lia.
    + rewrite sweep_out; [done|]. rewrite !elem_of_seq. lia.
  - rewrite !get2_outside; [by destruct (_ && _) | done |].
    intros Hin. apply Hout. revert Hin. apply inside_shape. symmetry. apply sweep_shape.
Qed.
End CleanupFrame.

(** X1.  The cleanup pass keeps the shape of the image; it changes no pixel of
    the border ring, no pixel whose alpha is 0 and no pixel with a channel
    of at most 180; and a pixel that it changes becomes (0, 0, 0, 0). *)
Theorem cleanup_edges_frame (img : image) (y x : nat) :
  let p := get2 transparent img y x in
  let out := get2 transparent (ProcessCat.cleanup_edges img) y x in
  row_lengths (ProcessCat.cleanup_edges img) = row_lengths img
  ∧ (out = p ∨ out = transparent)
  ∧ (interior img y x = false → out = p)
  ∧ (alpha p = 0 → out = p)
  ∧ (red p ≤ 180 ∨ green p ≤ 180 ∨ blue p ≤ 180 → out = p).
Proof.
  intros p out. split; [apply cleanup_edges_shape|].
  assert (out = if interior img y x && cleanup_cond img y x then transparent else p)
    as Hout by apply cleanup_edges_pixel.
  split; [rewrite Hout; destruct (_ && _); auto|].
  split; [intros Hb; by rewrite Hout, Hb|].
  split.
  - intros Ha. rewrite Hout. unfold cleanup_cond. fold p. rewrite Ha. simpl.
    by rewrite andb_false_r.
  - intros Hdark. rewrite Hout. unfold cleanup_cond. fold p.
    assert ((180 <? red p) && (180 <? green p) && (180 <? blue p) = false) as ->.
    { rewrite !andb_false_iff, !Z.ltb_ge. tauto. }
    by rewrite !andb_false_r.
Qed.

(** ** The pixel pass of [smart_cat_background_removal] *)

Lemma foldl_rel {A B C} (R : A → B → Prop) (f : A → C → A) (g : B → C → B)
  (l : list C) (a : A) (b : B) :
  R a b → (∀ a b x, R a b → R (f a x) (g b x)) → R (foldl f a l) (foldl g b l).
Proof.
  revert a b. induction l as [|x l IH]; intros a b Hab Hstep; simpl; [done|].
  apply IH; [by apply Hstep | done].
Qed.

(** A decoded RGBA pixel, and a decoded image. *)
Definition valid_pixel (p : pixel) : Prop :=
  channel (red p) ∧ channel (green p) ∧ channel (blue p) ∧ channel (alpha p).

Definition valid_image (img : image) : Prop :=
  rectangular img ∧ Forall (Forall valid_pixel) img.

Lemma valid_image_pixel img y x : valid_image img → valid_pixel (get2 transparent img y x).
Proof.
  intros [_ Hall]. unfold get2.
  destruct (img !! y) as [row|] eqn:Hrow; simpl; [|by repeat split].
  destruct (row !! x) as [p|] eqn:Hp; simpl; [|by repeat split].
  rewrite Forall_lookup in Hall. specialize (Hall _ _ Hrow).
  rewrite Forall_lookup in Hall. by apply (Hall _ _ Hp).
Qed.

Section PixelPass.
Context (background_colors : list (Z * Z * Z)).

(** The classifier on a pixel. *)
Definition is_background (p : pixel) : bool :=
  ProcessCat.is_background_pixel (red p) (green p) (blue p) background_colors.

Definition clear_if_background (p : pixel) : pixel :=
  if is_background p then transparent else p.

Lemma clear_background_sweep img :
  (ProcessCat.clear_background background_colors img).1
  = sweep transparent (λ _ _ cur, clear_if_background cur)
          (seq 0 (height img)) (seq 0 (width img)) img.
Proof.
  unfold ProcessCat.clear_background, sweep, row_sweep.
  apply (foldl_rel (λ (acc : image * Z) s, acc.1 = s)); [done|].
  intros acc s y <-.
  apply (foldl_rel (λ (acc : image * Z) s, acc.1 = s)); [done|].
  intros [pixels n] s' x <-. unfold write_at, clear_if_background, is_background. simpl.
  destruct (ProcessCat.is_background_pixel _ _ _ _); simpl; [done|].
  by rewrite set2_get2_id.
Qed.

Lemma clear_background_shape img :
  row_lengths (ProcessCat.clear_background background_colors img).1 = row_lengths img.
Proof. rewrite clear_background_sweep. apply sweep_shape. Qed.

Lemma clear_background_pixel img y x :
  rectangular img → inside img y x →
  get2 transparent (ProcessCat.clear_background background_colors img).1 y x
  = clear_if_background (get2 transparent img y x).
Proof.
  intros Hrect Hin. rewrite clear_background_sweep.
  pose proof (proj1 (rectangular_inside img y x Hrect) Hin) as [Hy Hx].
  rewrite sweep_in; [done | apply NoDup_seq.. | | | done]; apply elem_of_seq; lia.
Qed.
End PixelPass.

(** A pixel that the classifier rejects has a channel of at most 180: the
    brightness rule accepts every pixel whose channels all exceed 180. *)
Lemma rejected_not_light (colors : list (Z * Z * Z)) (p : pixel) :
  valid_pixel p → is_background colors p = false →
  (180 <? red p) && (180 <? green p) && (180 <? blue p) = false.
Proof.
  intros (Hr & Hg & Hb & _). unfold is_background, ProcessCat.is_background_pixel,
    ProcessCat.is_background_pixel_tol.
  destruct (existsb _ _); [done|]. destruct (_ && _ && _ && _); [done|].
  fold (bright (red p) (green p) (blue p)). rewrite (bright_iff _ _ _ Hr Hg Hb).
  destruct (540 <? _) eqn:Hsum; [done|]. intros _.
  apply Z.ltb_ge in Hsum. rewrite !andb_false_iff, !Z.ltb_ge. lia.
Qed.

(** After the pixel pass the cleanup finds nothing to clear: a pixel that is
    left is not light, and a cleared one has alpha 0. *)
Lemma cleanup_after_pixel_pass (colors : list (Z * Z * Z)) (img : image) :
  valid_image img →
  ProcessCat.cleanup_edges (ProcessCat.clear_background colors img).1
  = (ProcessCat.clear_background colors img).1.
Proof.
  intros Hvalid. apply (array_ext transparent); [apply cleanup_edges_shape|].
  intros y x Hin. rewrite cleanup_edges_pixel.
  assert (cleanup_cond (ProcessCat.clear_background colors img).1 y x = false) as ->;
    [|by rewrite andb_false_r].
  apply (proj1 (inside_shape _ _ _ _ (cleanup_edges_shape _))) in Hin.
  apply (proj1 (inside_shape _ _ _ _ (clear_background_shape colors img))) in Hin.
  unfold cleanup_cond. rewrite clear_background_pixel by (done || apply Hvalid).
  unfold clear_if_background.
  destruct (is_background colors _) eqn:Hbg; [done|].
  rewrite (rejected_not_light colors _ (valid_image_pixel img y x Hvalid) Hbg).
  by rewrite andb_false_r.
Qed.

Lemma smart_removal_saved (img : image) :
  valid_image img → (0 < width img * height img)%nat →
  ProcessCat.smart_cat_background_removal img
  = Some (ProcessCat.clear_background (ProcessCat.analyze_background_colors img) img).1.
Proof.
  intros Hvalid Hsize. unfold ProcessCat.smart_cat_background_removal.
  pose proof (cleanup_after_pixel_pass (ProcessCat.analyze_background_colors img) img Hvalid)
    as Hclean.
  destruct (ProcessCat.clear_background _ img) as [pixels n].
  destruct (Nat.eqb_spec (width img * height img) 0) as [|_]; [lia|].
  simpl in Hclean. by rewrite Hclean.
Qed.

(** X2.  On a decoded image with at least one pixel, [smart_cat_background_removal]
    saves an image of the same shape in which a pixel is (0, 0, 0, 0) when the
    classifier accepts it for the colours found by [analyze_background_colors]
    and is the input pixel otherwise; the cleanup pass at the end changes
    nothing. *)
Theorem smart_removal_is_pixel_pass (img : image) :
  valid_image img → (0 < width img * height img)%nat →
  ∃ saved, ProcessCat.smart_cat_background_removal img = Some saved
    ∧ ProcessCat.cleanup_edges
        (ProcessCat.clear_background (ProcessCat.analyze_background_colors img) img).1
      = saved
    ∧ row_lengths saved = row_lengths img
    ∧ ∀ y x, inside img y x →
        get2 transparent saved y x
        = clear_if_background (ProcessCat.analyze_background_colors img)
                              (get2 transparent img y x).
Proof.
  intros Hvalid Hsize. eexists. split; [by apply smart_removal_saved|].
  split; [by apply cleanup_after_pixel_pass|].
  split; [apply clear_background_shape|].
  intros y x Hin. apply clear_background_pixel; [apply Hvalid | done].
Qed.

Definition two_tone : image :=
  [ [RGBA 250 250 250 255; RGBA 10 20 30 255];
    [RGBA 40 40 40 255; RGBA 200 180 170 255] ].

Lemma smart_removal_is_pixel_pass_witness :
  ProcessCat.smart_cat_background_removal two_tone
  = Some [ [transparent; RGBA 10 20 30 255];
           [RGBA 40 40 40 255; transparent] ].
Proof.
  destruct (smart_removal_is_pixel_pass two_tone) as (saved & -> & <- & _).
  - split; [repeat constructor|].
    repeat constructor; unfold channel; simpl; lia.
  - simpl. lia.
  - vm_compute. reflexivity.
Defined.

(** ** The background colours found in the corners *)

Section BackgroundColors.
Implicit Types (d : list (Z * Z * Z * Z)) (q k : Z * Z * Z).

(** The counters of the dict. *)
Definition total_count d : Z := foldr (λ e n, e.2 + n) 0 d.

Lemma count_color_keys q d k :
  k ∈ (ProcessCat.count_color q d).*1 → k = q ∨ k ∈ d.*1.
Proof.
  induction d as [|[k' n] d IH]; simpl.
  - intros ->%list_elem_of_singleton. by left.
  - case_decide as Hk; simpl; rewrite !elem_of_cons; [tauto|].
    intros [->|Hin]; [tauto|]. destruct (IH Hin); tauto.
Qed.

Lemma count_color_total q d :
  total_count (ProcessCat.count_color q d) = total_count d + 1.
Proof.
  induction d as [|[k' n] d IH]; simpl; [done|].
  case_decide; simpl; [lia|]. rewrite IH. lia.
Qed.

Lemma count_color_positive q d :
  Forall (λ e, 0 < e.2) d → Forall (λ e, 0 < e.2) (ProcessCat.count_color q d).
Proof.
  induction d as [|[k' n] d IH]; simpl; intros Hd.
  - by repeat constructor.
  - apply Forall_cons_1 in Hd as [Hn Hd]. simpl in Hn.
    case_decide; constructor; simpl; try lia; auto.
Qed.

(** After counting the colours of [colors] into an empty dict, the keys
    are quantized samples, the counters are positive and add up to the
    number of samples. *)
Lemma color_count_spec (colors : list (Z * Z * Z)) :
  let color_count :=
    foldl (λ cc color, ProcessCat.count_color (ProcessCat.quantize color) cc) [] colors in
  (∀ k, k ∈ color_count.*1 → ∃ c, c ∈ colors ∧ k = ProcessCat.quantize c)
  ∧ total_count color_count = Z.of_nat (length colors)
  ∧ Forall (λ e, 0 < e.2) color_count.
Proof.
  induction colors as [|c colors IH] using rev_ind; simpl.
  - split; [by intros k ?%elem_of_nil|]. split; [done | constructor].
  - rewrite foldl_app. simpl. destruct IH as (Hkeys & Htotal & Hpos).
    split; [|split].
    + intros k [->|Hk]%count_color_keys.
      * exists c. split; [apply elem_of_app; right; by left | done].
      * destruct (Hkeys k Hk) as (c' & ? & ->). exists c'.
        split; [apply elem_of_app; by left | done].
    + rewrite count_color_total, Htotal, length_app. simpl. lia.
    + by apply count_color_positive.
Qed.

Lemma foldl_select {A B} (P : A → bool) (f : A → B) (l : list A) (acc : list B) :
  foldl (λ acc e, if P e then acc ++ [f e] else acc) acc l
  = acc ++ (f <$> filter (λ e, P e = true) l).
Proof.
  revert acc. induction l as [|e l IH]; intros acc; simpl; [by rewrite app_nil_r|].
  rewrite IH, filter_cons. destruct (P e) eqn:He.
  - rewrite decide_True by done. by rewrite <- app_assoc.
  - rewrite decide_False by done. done.
Qed.

(** Entries whose counter exceeds a tenth of the total: fewer than ten. *)
Lemma frequent_entries_bound d (t : Z) :
  Forall (λ e, 0 < e.2) d → total_count d ≤ t →
  (length (filter (λ e : Z * Z * Z * Z, (t < 10 * e.2)%Z) d) ≤ 9)%nat.
Proof.
  intros Hpos Htotal.
  assert (Z.of_nat (length (filter (λ e : Z * Z * Z * Z, t < 10 * e.2) d)) * (t + 1)
          ≤ 10 * total_count d) as Hsum.
  { clear Htotal. induction d as [|e d IH]; simpl; [lia|].
    apply Forall_cons_1 in Hpos as [He Hd]. specialize (IH Hd).
    rewrite filter_cons. case_decide; simpl length; lia. }
  assert (0 ≤ total_count d).
  { clear -Hpos. induction Hpos; simpl; lia. }
  nia.
Qed.

Lemma corner_colors_length img xs ys :
  length (ProcessCat.corner_colors img xs ys) = (length xs * length ys)%nat.
Proof.
  unfold ProcessCat.corner_colors. induction xs as [|x xs IH]; csimpl; [done|].
  rewrite length_app, IH. f_equal.
  clear. induction ys as [|y ys IH]; csimpl; [done|]. by rewrite IH.
Qed.

Lemma edge_colors_length img :
  let s := ProcessCat.sample_size (width img) (height img) in
  length (ProcessCat.edge_colors img) = (4 * s * s)%nat ∧ (s ≤ 20)%nat.
Proof.
  intros s. unfold ProcessCat.edge_colors. fold s.
  rewrite !length_app, !corner_colors_length, !length_seq.
  split; [lia|]. unfold s, ProcessCat.sample_size. lia.
Qed.

Definition frequency_row (s : nat) : bool :=
  let t := Z.of_nat (4 * s * s) in
  forallb (λ c, Bool.eqb (fgt (PrimFloat.div (float_of_Z c) (float_of_Z t)) 0.1%float)
                         (t <? 10 * c))
          (Z.of_nat <$> seq 0 (4 * s * s + 1)).

Lemma frequency_table : forallb frequency_row (seq 0 21) = true.
Proof. vm_compute. reflexivity. Qed.

(** For the totals that the corner samples can have, the binary64 test
    [count / total > 0.1] is the integer test [10 * count > total]. *)
Lemma frequency_test (s : nat) (c : Z) :
  (s ≤ 20)%nat → 0 ≤ c ≤ Z.of_nat (4 * s * s) →
  fgt (PrimFloat.div (float_of_Z c) (float_of_Z (Z.of_nat (4 * s * s)))) 0.1%float
  = (Z.of_nat (4 * s * s) <? 10 * c).
Proof.
  intros Hs Hc. pose proof frequency_table as Htable.
  rewrite forallb_forall in Htable. specialize (Htable s).
  unfold frequency_row in Htable. rewrite forallb_forall in Htable.
  apply Bool.eqb_prop, Htable.
  - apply list_elem_of_In, elem_of_seq. lia.
  - apply list_elem_of_In, list_elem_of_fmap. exists (Z.to_nat c).
    split; [lia|]. apply elem_of_seq. lia.
Qed.
End BackgroundColors.

Lemma count_le_total (d : list (Z * Z * Z * Z)) e :
  Forall (λ e, 0 < e.2) d → e ∈ d → e.2 ≤ total_count d.
Proof.
  induction 1 as [|e' d He' Hd IH]; [by intros ?%elem_of_nil|].
  assert (0 ≤ total_count d) by (clear -Hd; induction Hd; simpl; lia).
  intros [->|Hin]%elem_of_cons; simpl; [lia|]. specialize (IH Hin). lia.
Qed.

Lemma filter_length_le {A} (P Q : A → Prop) `{∀ x, Decision (P x)} `{∀ x, Decision (Q x)}
  (l : list A) :
  (∀ x, x ∈ l → P x → Q x) → (length (filter P l) ≤ length (filter Q l))%nat.
Proof.
  induction l as [|x l IH]; intros HPQ; [done|].
  rewrite !filter_cons.
  assert (length (filter P l) ≤ length (filter Q l))%nat
    by (apply IH; intros; apply HPQ; [by right | done]).
  destruct (decide (P x)) as [HP|]; destruct (decide (Q x)) as [|HQ]; simpl; try lia.
  destruct HQ. apply HPQ; [left | done].
Qed.

(** The entries that [analyze_background_colors] keeps. *)
Lemma selected_colors (img : image) :
  let color_count :=
    foldl (λ cc color, ProcessCat.count_color (ProcessCat.quantize color) cc)
          [] (ProcessCat.edge_colors img) in
  let total := Z.of_nat (length (ProcessCat.edge_colors img)) in
  let selected :=
    (filter (λ e, ProcessCat.frequent_and_bright total e = true) color_count).*1 in
  ProcessCat.analyze_background_colors img
  = match selected with [] => ProcessCat.default_background_colors | _ => selected end
  ∧ (length selected ≤ 9)%nat
  ∧ ∀ r g b, (r, g, b) ∈ selected →
      (∃ sample, sample ∈ ProcessCat.edge_colors img
                 ∧ (r, g, b) = ProcessCat.quantize sample)
      ∧ 150 < r ∧ 150 < g ∧ 150 < b.
Proof.
  intros color_count total selected.
  destruct (color_count_spec (ProcessCat.edge_colors img)) as (Hkeys & Htotal & Hpos).
  fold color_count in Hkeys, Htotal, Hpos. fold total in Htotal.
  destruct (edge_colors_length img) as [Hlen Hs].
  set (s := ProcessCat.sample_size (width img) (height img)) in *.
  split; [|split].
  - unfold ProcessCat.analyze_background_colors. fold color_count. fold total.
    by rewrite foldl_select.
  - unfold selected. rewrite length_fmap.
    etrans; [|apply (frequent_entries_bound color_count total Hpos); lia].
    apply filter_length_le. intros [[[r g] b] c] Hin Hsel.
    unfold ProcessCat.frequent_and_bright in Hsel.
    apply andb_prop in Hsel as [Hfreq _].
    pose proof (count_le_total _ _ Hpos Hin) as Hle.
    pose proof (proj1 (Forall_forall _ _) Hpos _ (proj1 (list_elem_of_In _ _) Hin)) as Hc.
    simpl in Hle, Hc. rewrite Htotal in Hle. clear Hpos Htotal Hkeys.
    unfold total in *. rewrite Hlen in *.
    rewrite frequency_test in Hfreq by (done || lia). by apply Z.ltb_lt in Hfreq.
  - intros r g b Hin. unfold selected in Hin.
    apply list_elem_of_fmap in Hin as ([k c] & [= <-] & Hin).
    apply list_elem_of_filter in Hin as [Hsel Hin].
    split.
    + apply Hkeys. apply list_elem_of_fmap. by exists (r, g, b, c).
    + unfold ProcessCat.frequent_and_bright in Hsel.
      apply andb_prop in Hsel as [_ Hbright].
      rewrite !andb_true_iff, !Z.ltb_lt in Hbright. tauto.
Qed.

(** X3.  [analyze_background_colors] returns between one and nine colours.  Each
    is one of the three default colours or the quantization (to multiples
    of 16) of a pixel sampled in a corner, and each has all its channels at
    least 160. *)
Theorem background_colors_are_bright (img : image) :
  let colors := ProcessCat.analyze_background_colors img in
  (1 ≤ length colors ≤ 9)%nat
  ∧ ∀ r g b, (r, g, b) ∈ colors →
      ((r, g, b) ∈ ProcessCat.default_background_colors
       ∨ ∃ sample, sample ∈ ProcessCat.edge_colors img
                   ∧ (r, g, b) = ProcessCat.quantize sample)
      ∧ 160 ≤ r ∧ 160 ≤ g ∧ 160 ≤ b.
Proof.
  destruct (selected_colors img) as (Heq & Hlen & Hsel). simpl. rewrite Heq.
  destruct (filter _ _).*1 as [|c0 sel] eqn:Hlist.
  - split; [simpl; lia|]. intros r g b Hin. split; [by left|].
    unfold ProcessCat.default_background_colors in Hin.
    repeat (apply elem_of_cons in Hin as [[= -> -> ->]|Hin]; [lia|]).
    by apply elem_of_nil in Hin.
  - split; [simpl in *; lia|]. intros r g b Hin.
    destruct (Hsel r g b Hin) as ((sample & Hsample & Hq) & Hr & Hg & Hb).
    split; [right; by exists sample|].
    destruct sample as [[r0 g0] b0]. simpl in Hq. injection Hq as -> -> ->. lia.
Qed.

Lemma background_colors_at_least_160 (img : image) r g b :
  (r, g, b) ∈ ProcessCat.analyze_background_colors img → 160 ≤ r ∧ 160 ≤ g ∧ 160 ≤ b.
Proof.
  destruct (selected_colors img) as (Heq & _ & Hsel). simpl in *. rewrite Heq.
  destruct (filter _ _).*1 as [|c0 sel] eqn:Hlist.
  - unfold ProcessCat.default_background_colors. intros Hin.
    repeat (apply elem_of_cons in Hin as [[= -> -> ->]|Hin]; [lia|]).
    by apply elem_of_nil in Hin.
  - intros Hin. destruct (Hsel r g b Hin) as (([[r0 g0] b0] & _ & Hq) & Hr & Hg & Hb).
    simpl in Hq. injection Hq as -> -> ->. lia.
Qed.

(** A pixel with a channel of at most 135 is within 25 of no background
    colour, and it is not near-white; with [r + g + b ≤ 540] it is not
    bright either. *)
Lemma dark_pixel_not_background (img : image) (p : pixel) :
  valid_pixel p →
  red p ≤ 135 ∨ green p ≤ 135 ∨ blue p ≤ 135 →
  red p + green p + blue p ≤ 540 →
  is_background (ProcessCat.analyze_background_colors img) p = false.
Proof.
  intros (Hr & Hg & Hb & _) Hdark Hsum.
  unfold is_background, ProcessCat.is_background_pixel, ProcessCat.is_background_pixel_tol.
  assert (existsb (ProcessCat.near 25 (red p) (green p) (blue p))
                  (ProcessCat.analyze_background_colors img) = false) as ->.
  { apply not_true_is_false. intros ([[bg_r bg_g] bg_b] & Hin & Hnear)%existsb_exists.
    apply list_elem_of_In, background_colors_at_least_160 in Hin.
    unfold ProcessCat.near in Hnear. rewrite !andb_true_iff, !Z.ltb_lt in Hnear. lia. }
  assert ((200 <? red p) && (200 <? green p) && (200 <? blue p) = false) as ->.
  { rewrite !andb_false_iff, !Z.ltb_ge. lia. }
  simpl. fold (bright (red p) (green p) (blue p)).
  rewrite (bright_iff _ _ _ Hr Hg Hb).
  destruct (Z.ltb_spec 540 (red p + green p + blue p)); [lia | done].
Qed.

(** X4.  [smart_cat_background_removal] keeps every dark pixel: a pixel with a
    channel of at most 135 and with [r + g + b ≤ 540] is saved unchanged,
    whatever the rest of the image is. *)
Theorem dark_pixels_are_kept (img : image) (y x : nat) :
  valid_image img → inside img y x →
  red (get2 transparent img y x) ≤ 135 ∨ green (get2 transparent img y x) ≤ 135
    ∨ blue (get2 transparent img y x) ≤ 135 →
  red (get2 transparent img y x) + green (get2 transparent img y x)
    + blue (get2 transparent img y x) ≤ 540 →
  ∃ saved, ProcessCat.smart_cat_background_removal img = Some saved
    ∧ get2 transparent saved y x = get2 transparent img y x.
Proof.
  intros Hvalid Hin Hdark Hsum.
  assert (0 < width img * height img)%nat as Hsize.
  { apply (rectangular_inside img y x (proj1 Hvalid)) in Hin. unfold height in *. nia. }
  eexists. split; [by apply smart_removal_saved|].
  rewrite clear_background_pixel by (done || apply Hvalid).
  unfold clear_if_background.
  by rewrite dark_pixel_not_background by (done || by apply valid_image_pixel).
Qed.

Lemma dark_pixels_are_kept_witness :
  ∃ saved, ProcessCat.smart_cat_background_removal two_tone = Some saved
    ∧ get2 transparent saved 0 1 = RGBA 10 20 30 255.
Proof.
  apply (dark_pixels_are_kept two_tone 0 1).
  - split; [repeat constructor|].
    repeat constructor; unfold channel; simpl; lia.
  - vm_compute. eauto.
  - vm_compute. left. discriminate.
  - vm_compute. discriminate.
Defined.

(** ** The white/gray strategy and the selector *)

(** X5.  On uint8 pixels the white/gray strategy returns its input unchanged, for
    every image and every tolerance: the brightness it computes never
    exceeds 180.  So do [remove_complex_background] with the method
    white_gray and the legacy entry point built on it. *)
Theorem white_gray_strategy_changes_nothing (promo : promotion) (tolerance : Z)
  (img : image) :
  remove_white_gray_background_tol tolerance img = img
  ∧ remove_complex_background promo (Use WhiteGray) img = Some img.
Proof.
  split; [apply white_gray_removes_nothing|].
  unfold remove_complex_background, apply_method, remove_white_gray_background. simpl.
  by rewrite white_gray_removes_nothing.
Qed.

Lemma selector_cases (promo : promotion) (img : image) :
  ∃ out, process_single_cat_image promo img = Some out
    ∧ (out = img ∨ out = remove_checkerboard_background img
       ∨ out = remove_background_flood_fill promo img)
    ∧ row_lengths out = row_lengths img
    ∧ ((∀ m, accepted promo img m = false) → out = img).
Proof.
  destruct (selector_outcome promo img) as (out & Hout & Hsome & Hnone).
  pose proof (white_gray_removes_nothing 40 img) as Hwg.
  fold remove_white_gray_background in Hwg.
  exists out. split; [done|].
  assert (out = img ∨ out = remove_checkerboard_background img
          ∨ out = remove_background_flood_fill promo img) as Hcases.
  { destruct (accepted promo img Checkerboard) eqn:H1;
      [|destruct (accepted promo img WhiteGray) eqn:H2;
        [|destruct (accepted promo img EdgeFlood) eqn:H3]].
    1-3: destruct Hsome as (m & _ & -> & _); [eauto|];
         destruct m; simpl; rewrite ?Hwg; auto.
    left. rewrite Hnone, Hwg; [done|]. by intros []. }
  split; [done|]. split.
  - destruct Hcases as [->|[->| ->]];
      [done | apply remove_checkerboard_shape | apply remove_flood_fill_shape].
  - intros Hrej. by rewrite (Hnone Hrej), Hwg.
Qed.

(** X6.  The selector always returns an image, of the shape of its input: the
    input itself (the white/gray result, also the fallback), the
    checkerboard result or the flood-fill result.  When no ratio is in the
    band it is the input, unchanged. *)
Theorem selector_returns_input_or_removal (promo : promotion) (img : image) :
  ∃ out, process_single_cat_image promo img = Some out
    ∧ (out = img ∨ out = remove_checkerboard_background img
       ∨ out = remove_background_flood_fill promo img)
    ∧ row_lengths out = row_lengths img
    ∧ ((∀ m, accepted promo img m = false) → out = img).
Proof. apply selector_cases. Qed.

(** ** The transparency ratio *)

(** X7.  The transparency ratio depends only on the alpha values of the image,
    and not on their order or on the shape of the image. *)
Theorem transparency_ratio_permutation (img img' : image) :
  alpha <$> concat img ≡ₚ alpha <$> concat img' →
  calculate_transparency_ratio img = calculate_transparency_ratio img'.
Proof.
  intros Hperm. unfold calculate_transparency_ratio.
  assert (∀ i : image, concat ((λ row : list pixel, alpha <$> row) <$> i)
                       = alpha <$> concat i) as Hconcat.
  { intros i. induction i as [|row i IH]; csimpl; [done|]. by rewrite fmap_app, IH. }
  rewrite !Hconcat.
  by rewrite (Permutation_length Hperm),
             (Permutation_length (filter_Permutation (λ a, a = 0) _ _ Hperm)).
Qed.

Lemma transparency_ratio_permutation_witness :
  calculate_transparency_ratio [ [transparent; white; black] ]
  = calculate_transparency_ratio [ [black; transparent]; [RGBA 7 7 7 255] ].
Proof.
  apply transparency_ratio_permutation. simpl.
  apply perm_swap.
Defined.

(** ** Character frames *)

(** X8.  For at least one frame, the grid chosen by [process_character_frames]
    has a positive number of columns and enough cells.  The sheet is built
    with [ceil(n / columns)] rows, which is the number of rows chosen
    except for 9 to 12 frames, where the chosen grid is 4 by 4 and the
    sheet has 3 rows. *)
Theorem sheet_layout_rows (frame_count : nat) :
  (1 ≤ frame_count)%nat →
  let columns := (sheet_layout frame_count).1 in
  let rows := (sheet_layout frame_count).2 in
  let built_rows := ((frame_count + columns - 1) / columns)%nat in
  (1 ≤ columns)%nat
  ∧ (frame_count ≤ columns * rows)%nat
  ∧ (built_rows ≤ rows)%nat
  ∧ (built_rows = rows ↔ ¬ (9 ≤ frame_count ≤ 12)%nat)
  ∧ ((9 ≤ frame_count ≤ 12)%nat → built_rows = 3%nat ∧ rows = 4%nat).
Proof.
  intros Hn. destruct (decide (frame_count ≤ 16)%nat) as [Hsmall|Hbig].
  - do 17 (destruct frame_count as [|frame_count];
           [try lia; cbv zeta; cbn; repeat split; intros; lia|]).
    lia.
  - unfold sheet_layout.
    destruct (Nat.leb_spec frame_count 4); [lia|].
    destruct (Nat.leb_spec frame_count 8); [lia|].
    destruct (Nat.leb_spec frame_count 16); [lia|]. cbn [fst snd]. cbv zeta.
    replace (frame_count + 8 - 1)%nat with (frame_count + 7)%nat by lia.
    pose proof (Nat.div_mod_eq (frame_count + 7) 8) as Hdm.
    pose proof (Nat.mod_upper_bound (frame_count + 7) 8) as Hm.
    repeat split; intros; lia.
Qed.

Lemma sheet_layout_rows_witness :
  let columns := (sheet_layout 10).1 in
  let rows := (sheet_layout 10).2 in
  columns = 4%nat ∧ rows = 4%nat ∧ ((10 + columns - 1) / columns)%nat = 3%nat.
Proof.
  destruct (sheet_layout_rows 10) as (_ & _ & _ & _ & Hmid); [lia|].
  destruct Hmid as [Hbuilt Hrows]; [lia|].
  split; [reflexivity|]. split; [exact Hrows | exact Hbuilt].
Defined.

Lemma sheet_layout_columns (frame_count : nat) :
  (1 ≤ frame_count)%nat → (1 ≤ (sheet_layout frame_count).1)%nat.
Proof.
  intros Hn. unfold sheet_layout.
  repeat (destruct (_ <=? _)%nat); simpl; lia.
Qed.

(** X9.  [process_character_frames] returns nothing for a directory without PNG
    files.  Otherwise it returns a sheet of 64 by 64 cells with the chosen
    number of columns and [ceil(n / columns)] rows, in which cell [i] holds
    frame [i] resized and pasted over the transparent fill and the cells
    after the last frame are transparent.  A frame is the selector's output
    for a readable file, of the shape of the file's image, and the 64 by 64
    transparent placeholder for an unreadable one. *)
Theorem character_frames_sheet (resize : nat * nat → image → image)
  (paste_pixel : pixel → pixel → pixel) (promo : promotion)
  (png_files : list (option image)) :
  (∀ img, height (resize (64, 64)%nat img) = 64%nat
          ∧ width (resize (64, 64)%nat img) = 64%nat) →
  process_character_frames resize paste_pixel promo [] = None
  ∧ process_frame promo None = full 64 64 transparent
  ∧ (∀ img, row_lengths (process_frame promo (Some img)) = row_lengths img)
  ∧ (png_files ≠ [] →
     let n := length png_files in
     let columns := (sheet_layout n).1 in
     let rows := ((n + columns - 1) / columns)%nat in
     ∃ sheet, process_character_frames resize paste_pixel promo png_files = Some sheet
       ∧ row_lengths sheet = replicate (rows * 64) (columns * 64)%nat
       ∧ ∀ i dy dx, (i < rows * columns)%nat → (dy < 64)%nat → (dx < 64)%nat →
           get2 transparent sheet (i / columns * 64 + dy) (i mod columns * 64 + dx)
           = match png_files !! i with
             | Some file =>
               paste_pixel transparent
                 (get2 transparent (resize (64, 64)%nat (process_frame promo file)) dy dx)
             | None => transparent
             end).
Proof.
  intros Hresize. split; [done|]. split; [done|]. split.
  { intros img. unfold process_frame. simpl.
    destruct (selector_cases promo img) as (out & -> & _ & Hshape & _). done. }
  intros Hne n columns rows.
  assert (1 ≤ n)%nat as Hn by (subst n; destruct png_files; [done | simpl; lia]).
  pose proof (sheet_layout_columns n Hn) as Hc. fold columns in Hc.
  destruct (create_sprite_sheet_cells resize paste_pixel columns 64 64
              (Some <$> (process_frame promo <$> png_files)))
    as (sheet & Hsheet & Hshape & Hcells);
    [lia | lia | lia | by destruct png_files | done |].
  rewrite !length_fmap in Hshape, Hcells. fold n rows in Hshape, Hcells.
  exists sheet. split; [|split; [done|]].
  - unfold process_character_frames. destruct png_files; [done|].
    rewrite length_fmap. exact Hsheet.
  - intros i dy dx Hi Hdy Hdx. rewrite Hcells by done.
    rewrite !list_lookup_fmap. by destruct (png_files !! i).
Qed.

Lemma character_frames_sheet_witness :
  ∃ sheet,
    process_character_frames fill_resize copy_opaque Weak [None; Some [[black]]]
    = Some sheet
    ∧ row_lengths sheet = replicate 64 128%nat
    ∧ get2 transparent sheet 0 0 = transparent
    ∧ get2 transparent sheet 0 64 = black.
Proof.
  destruct (character_frames_sheet fill_resize copy_opaque Weak [None; Some [[black]]])
    as (_ & _ & _ & Hsheet); [intros img; split; reflexivity|].
  destruct Hsheet as (sheet & Hsome & Hshape & Hcells); [done|].
  exists sheet. split; [exact Hsome|]. split; [exact Hshape|]. split.
  - exact (Hcells 0%nat 0%nat 0%nat ltac:(simpl; lia) ltac:(lia) ltac:(lia)).
  - exact (Hcells 1%nat 0%nat 0%nat ltac:(simpl; lia) ltac:(lia) ltac:(lia)).
Defined.


(** ** What the edge flood fill clears *)

Section FloodExact.
Context (promo : promotion).

(** The similarity test as the loop evaluates it for a neighbour of colour
    [p]: the seed it is compared with has been cleared. *)
Definition qualifies (p : pixel) : bool :=
  color_diff promo [0; 0; 0] [red p; green p; blue p] <? 60.

(** For a light pixel the test holds exactly when [r + g + b > 708]. *)
Lemma qualifies_light (p : pixel) :
  valid_pixel p → all_above 180 p = true →
  qualifies p = (708 <? red p + green p + blue p).
Proof.
  intros (Hr & Hg & Hb & _) Hlight. unfold all_above in Hlight.
  rewrite !andb_true_iff, !Z.ltb_lt in Hlight. unfold channel in *.
  unfold qualifies, color_diff, py_sum, u8_abs, u8_sub, u8_add. simpl.
  replace ((0 - red p) mod 256) with (256 - red p)
    by (apply (Z.mod_unique _ _ (-1)); lia).
  replace ((0 - green p) mod 256) with (256 - green p)
    by (apply (Z.mod_unique _ _ (-1)); lia).
  replace ((0 - blue p) mod 256) with (256 - blue p)
    by (apply (Z.mod_unique _ _ (-1)); lia).
  destruct promo.
  - destruct (Z.ltb_spec (0 + (256 - red p) + (256 - green p) + (256 - blue p)) 60),
      (Z.ltb_spec 708 (red p + green p + blue p)); first [done | lia].
  - rewrite (Z.mod_small (0 + (256 - red p))) by lia.
    rewrite (Z.mod_small (0 + (256 - red p) + (256 - green p))) by lia.
    rewrite (Z.mod_small (0 + (256 - red p) + (256 - green p) + (256 - blue p))) by lia.
    destruct (Z.ltb_spec (0 + (256 - red p) + (256 - green p) + (256 - blue p)) 60),
      (Z.ltb_spec 708 (red p + green p + blue p)); first [done | lia].
Qed.

Context (h w : nat).

(** What one neighbour contributes to the queue. *)
Definition enqueued_at (res : image) (vis : list (list bool)) (y x : nat) (dy dx : Z)
  : list (nat * nat) :=
  let ny := Z.of_nat y + dy in
  let nx := Z.of_nat x + dx in
  if (0 <=? ny) && (ny <? Z.of_nat h) && (0 <=? nx) && (nx <? Z.of_nat w)
     && negb (get2 false vis (Z.to_nat ny) (Z.to_nat nx))
     && (color_diff promo (rgb res (y, x)) (rgb res (Z.to_nat ny, Z.to_nat nx)) <? 60)
  then [(Z.to_nat ny, Z.to_nat nx)] else [].

Definition enqueued (res : image) (vis : list (list bool)) (y x : nat)
  : list (nat * nat) :=
  offsets ≫= (λ dy, offsets ≫= (λ dx, enqueued_at res vis y x dy dx)).

Lemma foldl_append_bind {A B} (f : list A → B → list A) (g : B → list A) (l : list B) q :
  (∀ q x, f q x = q ++ g x) → foldl f q l = q ++ (l ≫= g).
Proof.
  intros Hf. revert q. induction l as [|x l IH]; intros q; csimpl.
  - by rewrite app_nil_r.
  - by rewrite IH, Hf, app_assoc.
Qed.

Lemma visit_neighbors_enqueued res vis y x q :
  foldl (λ q dy, foldl (λ q dx, visit_neighbor promo h w res vis (y, x) y x q dy dx)
                       q offsets) q offsets
  = q ++ enqueued res vis y x.
Proof.
  apply foldl_append_bind. intros q' dy.
  apply foldl_append_bind. intros q'' dx.
  unfold visit_neighbor, enqueued_at.
  destruct (_ && _ && _ && _ && _); simpl; [|by rewrite app_nil_r].
  destruct (_ <? 60); simpl; [done | by rewrite app_nil_r].
Qed.

(** The cells appended for the popped cell [(y, x)]: its neighbours in the
    grid that are not visited and pass the similarity test. *)
Lemma elem_of_enqueued res vis y x c :
  c ∈ enqueued res vis y x ↔
  neighbor_of h w (y, x) c ∧ get2 false vis c.1 c.2 = false
  ∧ (color_diff promo (rgb res (y, x)) (rgb res c) <? 60) = true.
Proof.
  unfold enqueued. rewrite list_elem_of_bind. split.
  - intros (dy & (dx & Hc & Hdx)%list_elem_of_bind & Hdy).
    unfold enqueued_at in Hc.
    destruct (_ && _ && _ && _ && _ && _) eqn:Hguard; [|by apply elem_of_nil in Hc].
    apply list_elem_of_singleton in Hc as ->.
    repeat (apply andb_prop in Hguard as [Hguard ?]).
    split; [|split; [by apply negb_true_iff | done]].
    unfold offsets in Hdy, Hdx.
    repeat (apply elem_of_cons in Hdy as [->|Hdy]); try (by apply elem_of_nil in Hdy);
    repeat (apply elem_of_cons in Hdx as [->|Hdx]); try (by apply elem_of_nil in Hdx);
      unfold neighbor_of, in_grid, adjacent; simpl; lia.
  - intros ([[Hy Hx] [Hay Hax]] & Hvis & Hdiff). destruct c as [ny nx]. cbn [fst snd] in *.
    exists (Z.of_nat ny - Z.of_nat y). split.
    + apply list_elem_of_bind. exists (Z.of_nat nx - Z.of_nat x). split.
      * unfold enqueued_at.
        replace (Z.of_nat y + (Z.of_nat ny - Z.of_nat y)) with (Z.of_nat ny) by lia.
        replace (Z.of_nat x + (Z.of_nat nx - Z.of_nat x)) with (Z.of_nat nx) by lia.
        rewrite !Nat2Z.id, Hvis, Hdiff.
        destruct (Z.leb_spec 0 (Z.of_nat ny)); [|lia].
        destruct (Z.ltb_spec (Z.of_nat ny) (Z.of_nat h)); [|lia].
        destruct (Z.leb_spec 0 (Z.of_nat nx)); [|lia].
        destruct (Z.ltb_spec (Z.of_nat nx) (Z.of_nat w)); [|lia].
        simpl. left.
      * unfold offsets. rewrite !elem_of_cons. lia.
    + unfold offsets. rewrite !elem_of_cons. lia.
Qed.

(** The step, with the exact queue in the case where the popped cell is
    cleared. *)
Lemma flood_step_exact st st' :
  flood_step promo h w st = Some st' →
  ∃ y x q', queue st = (y, x) :: q' ∧
    ((get2 false (visited st) y x = true
      ∧ st' = FloodState (result st) (visited st) q')
     ∨ (get2 false (visited st) y x = false
        ∧ all_above 180 (get2 transparent (result st) y x) = false
        ∧ st' = FloodState (result st) (set2 (visited st) y x true) q')
     ∨ (get2 false (visited st) y x = false
        ∧ all_above 180 (get2 transparent (result st) y x) = true
        ∧ st' = FloodState (set2 (result st) y x transparent)
                           (set2 (visited st) y x true)
                           (q' ++ enqueued (set2 (result st) y x transparent)
                                           (set2 (visited st) y x true) y x))).
Proof.
  unfold flood_step, all_above. destruct (queue st) as [|[y x] q']; [done|].
  intros Hstep. exists y, x, q'. split; [done|].
  destruct (get2 false (visited st) y x); [left; by simplify_eq|]. right.
  cbn beta iota zeta in Hstep.
  destruct ((180 <? red (get2 transparent (result st) y x))
            && (180 <? green (get2 transparent (result st) y x))
            && (180 <? blue (get2 transparent (result st) y x))); cbn [negb] in Hstep.
  2:{ left. by simplify_eq. }
  right. do 2 (split; [done|]).
  rewrite visit_neighbors_enqueued in Hstep. by injection Hstep as <-.
Qed.
End FloodExact.


Lemma elem_of_edge_pixels h w c :
  c ∈ edge_pixels h w ↔ in_grid h w c ∧ is_edge h w c.1 c.2 = true.
Proof.
  unfold edge_pixels, for2.
  rewrite (foldl_append_bind _
             (λ i, seq 0 w ≫= (λ j, if is_edge h w i j then [(i, j)] else []))).
  2:{ intros q i. apply foldl_append_bind. intros q' j.
      destruct (is_edge h w i j); [done | by rewrite app_nil_r]. }
  rewrite app_nil_l, list_elem_of_bind. unfold in_grid. split.
  - intros (i & (j & Hc & Hj%elem_of_seq)%list_elem_of_bind & Hi%elem_of_seq).
    destruct (is_edge h w i j) eqn:Hedge; [|by apply elem_of_nil in Hc].
    apply list_elem_of_singleton in Hc as ->. simpl. repeat split; [lia | lia | done].
  - destruct c as [i j]. simpl. intros ([Hi Hj] & Hedge).
    exists i. split; [|apply elem_of_seq; lia].
    apply list_elem_of_bind. exists j. split; [|apply elem_of_seq; lia].
    rewrite Hedge. left.
Qed.

Lemma get2_set2_other {A} (d : A) (arr : list (list A)) (c : nat * nat) y x v :
  c ≠ (y, x) → get2 d (set2 arr y x v) c.1 c.2 = get2 d arr c.1 c.2.
Proof. destruct c as [y' x']. simpl. intros Hne. apply get2_set2_ne. congruence. Qed.

Section FloodInvariant.
Context (promo : promotion) (img : image).
Implicit Types (st : flood_state) (c : nat * nat).

(** The cells that the fill reaches: the light cells of the border, and
    the light neighbours of a reached cell whose colour passes the
    similarity test. *)
Inductive flooded : nat * nat → Prop :=
  | flooded_border c : on_border img c → light_at img c = true → flooded c
  | flooded_step c c' :
      flooded c → neighbor_of (height img) (width img) c c' →
      qualifies promo (get2 transparent img c'.1 c'.2) = true →
      light_at img c' = true → flooded c'.

Lemma flooded_light c : flooded c → light_at img c = true.
Proof. by destruct 1. Qed.

Lemma flooded_in_grid c : flooded c → in_grid (height img) (width img) c.
Proof. destruct 1 as [c [? _] _ | c c' _ [? _] _ _]; done. Qed.

(** The invariant of the loop.  A cell that is not marked has the colour
    of the source; a marked cell is cleared when it is light and has the
    colour of the source otherwise, and a marked light cell is reached.
    Every queued cell is a border cell or a neighbour, passing the test,
    of a reached cell.  Every border cell, and every neighbour passing
    the test of a marked light cell, is marked or queued. *)
Definition flood_exact st : Prop :=
  (∀ c, get2 false (visited st) c.1 c.2 = false →
        get2 transparent (result st) c.1 c.2 = get2 transparent img c.1 c.2)
  ∧ (∀ c, get2 false (visited st) c.1 c.2 = true →
          if light_at img c
          then get2 transparent (result st) c.1 c.2 = transparent ∧ flooded c
          else get2 transparent (result st) c.1 c.2 = get2 transparent img c.1 c.2)
  ∧ Forall (λ c, on_border img c
                 ∨ ∃ c0, flooded c0 ∧ neighbor_of (height img) (width img) c0 c
                         ∧ qualifies promo (get2 transparent img c.1 c.2) = true)
           (queue st)
  ∧ (∀ c, on_border img c → get2 false (visited st) c.1 c.2 = true ∨ c ∈ queue st)
  ∧ (∀ c n, get2 false (visited st) c.1 c.2 = true → light_at img c = true →
            neighbor_of (height img) (width img) c n →
            qualifies promo (get2 transparent img n.1 n.2) = true →
            get2 false (visited st) n.1 n.2 = true ∨ n ∈ queue st).

Lemma flood_exact_init : flood_exact (flood_init img).
Proof.
  unfold flood_exact, flood_init. cbn [result visited queue].
  assert (∀ c, get2 false (full (height img) (width img) false) c.1 c.2 = false) as Hnone.
  { intros c. destruct (decide (inside (full (height img) (width img) false) c.1 c.2))
      as [[? ?]%inside_full|Hout].
    - by apply get2_full.
    - by apply get2_outside. }
  split; [done|]. split; [intros c Hc; by rewrite Hnone in Hc|].
  split.
  { apply Forall_forall. intros c Hc%list_elem_of_In%elem_of_edge_pixels. by left. }
  split.
  - intros c Hc. right. by apply elem_of_edge_pixels.
  - intros c n Hc. by rewrite Hnone in Hc.
Qed.

Lemma flood_exact_step st st' :
  flood_wf (height img) (width img) st → flood_exact st →
  flood_step promo (height img) (width img) st = Some st' → flood_exact st'.
Proof.
  intros Hwf (Hnew & Hold & Hqueue & Hborder & Hnext)
    (y & x & q' & Hpop & Hcases)%flood_step_exact.
  rewrite Hpop in Hqueue, Hborder, Hnext.
  apply Forall_cons_1 in Hqueue as [Hhead Htail].
  assert (inside (visited st) y x) as Hin.
  { apply (flood_wf_inside _ _ st (y, x) Hwf). destruct Hwf as [_ Hall].
    rewrite Hpop in Hall. by eapply Forall_cons_1. }
  assert (∀ c, get2 false (visited st) c.1 c.2 = true ∨ c ∈ (y, x) :: q' →
               get2 false (set2 (visited st) y x true) c.1 c.2 = true
               ∨ c ∈ q') as Hmark.
  { intros c [Hc|[->|Hc]%elem_of_cons]; [left; by apply get2_set2_true | | by right].
    left. by apply get2_set2_eq. }
  assert (∀ c, get2 false (set2 (visited st) y x true) c.1 c.2 = false →
               c ≠ (y, x) ∧ get2 false (visited st) c.1 c.2 = false) as Hunmarked.
  { intros c Hc. destruct (decide (c = (y, x))) as [->|Hne].
    - simpl in Hc. by rewrite get2_set2_eq in Hc.
    - split; [done|]. by rewrite get2_set2_other in Hc. }
  destruct Hcases as [[Hseen ->]|[(Hfresh & Hdark & ->)|(Hfresh & Hlight & ->)]];
    unfold flood_exact; cbn [result visited queue].
  - (* the popped cell is marked already *)
    repeat split; [done | done | done | |].
    + intros c [?|[->|?]%elem_of_cons]%Hborder; auto.
    + intros c n Hc Hl Hn Hq.
      destruct (Hnext c n Hc Hl Hn Hq) as [?|[->|?]%elem_of_cons]; auto.
  - (* the popped cell is not light: a wall *)
    assert (light_at img (y, x) = false) as Hwall.
    { pose proof (Hnew (y, x) Hfresh) as Hsame. cbn [fst snd] in Hsame.
      unfold light_at. cbn [fst snd]. by rewrite <- Hsame. }
    repeat split; [| | done | |].
    + intros c [_ Hc]%Hunmarked. by apply Hnew.
    + intros c Hc. destruct (decide (c = (y, x))) as [->|Hne].
      * rewrite Hwall. by apply Hnew.
      * apply Hold. by rewrite get2_set2_other in Hc.
    + intros c Hc. by apply Hmark, Hborder.
    + intros c n Hc Hl Hn Hq. apply Hmark.
      destruct (decide (c = (y, x))) as [->|Hne]; [congruence|].
      eapply Hnext; [|done..]. by rewrite get2_set2_other in Hc.
  - (* the popped cell is light: cleared, its neighbours examined *)
    assert (light_at img (y, x) = true) as Hl.
    { pose proof (Hnew (y, x) Hfresh) as Hsame. cbn [fst snd] in Hsame.
      unfold light_at. cbn [fst snd]. by rewrite <- Hsame. }
    assert (flooded (y, x)) as Hflood.
    { destruct Hhead as [?|(c0 & ? & ? & ?)]; [by constructor | by econstructor]. }
    assert (get2 transparent (set2 (result st) y x transparent) y x = transparent)
      as Hcleared.
    { destruct (decide (inside (result st) y x)) as [?|Hout]; [by apply get2_set2_eq|].
      apply get2_outside. by rewrite (inside_shape _ _ _ _ (row_lengths_set2 _ _ _ _)). }
    assert (∀ n, get2 false (set2 (visited st) y x true) n.1 n.2 = false →
              (color_diff promo (rgb (set2 (result st) y x transparent) (y, x))
                 (rgb (set2 (result st) y x transparent) n) <? 60)
              = qualifies promo (get2 transparent img n.1 n.2)) as Htest.
    { intros n [Hne Hn]%Hunmarked. unfold rgb, qualifies. cbn [fst snd].
      rewrite Hcleared, get2_set2_other by done. by rewrite (Hnew n Hn). }
    repeat split.
    + intros c [Hne Hc]%Hunmarked. rewrite get2_set2_other by done. by apply Hnew.
    + intros c Hc. destruct (decide (c = (y, x))) as [->|Hne].
      * by rewrite Hl.
      * rewrite get2_set2_other in Hc by done.
        rewrite get2_set2_other by done. by apply Hold.
    + apply Forall_app. split; [done|]. apply Forall_forall.
      intros n (Hn & Hv & Hd)%list_elem_of_In%elem_of_enqueued. right.
      exists (y, x). split; [done|]. split; [done|]. by rewrite <- (Htest n Hv).
    + intros c Hc. destruct (Hmark c (Hborder c Hc)); [by left|].
      right. apply elem_of_app. by left.
    + intros c n Hc Hlc Hn Hq.
      destruct (get2 false (set2 (visited st) y x true) n.1 n.2) eqn:Hvn; [by left|].
      right. apply elem_of_app.
      destruct (decide (c = (y, x))) as [->|Hne].
      * right. apply elem_of_enqueued. split; [done|]. split; [done|].
        by rewrite (Htest n Hvn).
      * left. rewrite get2_set2_other in Hc by done.
        destruct (Hmark n (Hnext _ n Hc Hlc Hn Hq)); [congruence | done].
Qed.

Lemma flood_exact_loop fuel st :
  flood_wf (height img) (width img) st → flood_exact st →
  flood_exact (flood_loop promo (height img) (width img) fuel st).
Proof.
  revert st. induction fuel as [|fuel IH]; intros st Hwf Hst; simpl; [done|].
  destruct (flood_step _ _ _ st) as [st'|] eqn:Hstep; [|done].
  apply IH; [by eapply flood_step_wf | by eapply flood_exact_step].
Qed.

(** When the loop has ended, the marked light cells are the reached ones. *)
Lemma flood_exact_final st c :
  flood_exact st → queue st = [] →
  flooded c → get2 false (visited st) c.1 c.2 = true.
Proof.
  intros (_ & Hold & _ & Hborder & Hnext) Hempty. rewrite Hempty in Hborder, Hnext.
  induction 1 as [c Hb Hl | c c' Hc IH Hn Hq Hl].
  - destruct (Hborder c Hb) as [?|[]%elem_of_nil]. done.
  - destruct (Hnext c c' IH (flooded_light c Hc) Hn Hq) as [?|[]%elem_of_nil]. done.
Qed.

Lemma flood_fill_cases c :
  (flooded c
   ∧ get2 transparent (remove_background_flood_fill promo img) c.1 c.2 = transparent)
  ∨ (¬ flooded c
     ∧ get2 transparent (remove_background_flood_fill promo img) c.1 c.2
       = get2 transparent img c.1 c.2).
Proof.
  unfold remove_background_flood_fill. cbv zeta.
  set (final := flood_loop _ _ _ _ _).
  assert (flood_exact final) as Hexact
    by (apply flood_exact_loop; [apply flood_init_wf | apply flood_exact_init]).
  assert (queue final = []) as Hempty.
  { apply flood_loop_empties; [apply flood_init_wf|]. by rewrite flood_init_measure. }
  pose proof (flood_exact_final final c Hexact Hempty) as Hall.
  destruct Hexact as (Hnew & Hold & _).
  destruct (get2 false (visited final) c.1 c.2) eqn:Hv.
  - specialize (Hold c Hv). destruct (light_at img c) eqn:Hl.
    + left. by destruct Hold.
    + right. split; [|done]. intros Hc%flooded_light. congruence.
  - right. split; [|by apply Hnew]. intros Hc. specialize (Hall Hc). congruence.
Qed.
End FloodInvariant.


(** X10.  The edge flood fill clears exactly the reached cells: every cell is
    either reached and cleared to [(0, 0, 0, 0)], or not reached and left
    as in the input.  In particular every light border pixel is cleared,
    and a pixel that changes was light. *)
Theorem flood_fill_clears_reached (promo : promotion) (img : image) (c : nat * nat) :
  let out := remove_background_flood_fill promo img in
  ((flooded promo img c ∧ get2 transparent out c.1 c.2 = transparent)
   ∨ (¬ flooded promo img c
      ∧ get2 transparent out c.1 c.2 = get2 transparent img c.1 c.2))
  ∧ (on_border img c → light_at img c = true →
     get2 transparent out c.1 c.2 = transparent)
  ∧ (get2 transparent out c.1 c.2 ≠ get2 transparent img c.1 c.2 →
     light_at img c = true ∧ get2 transparent out c.1 c.2 = transparent).
Proof.
  intros out. pose proof (flood_fill_cases promo img c) as Hcases. fold out in Hcases.
  split; [done|]. split.
  - intros Hb Hl. destruct Hcases as [[_ ?]|[Hnot _]]; [done|].
    destruct Hnot. by constructor.
  - intros Hne. destruct Hcases as [[Hc ?]|[_ ?]]; [|done].
    split; [by eapply flooded_light | done].
Qed.

Lemma flooded_has_light_border promo img c :
  flooded promo img c → ∃ b, on_border img b ∧ light_at img b = true.
Proof. induction 1; eauto. Qed.

Lemma flood_fill_border_dark promo img b :
  on_border img b →
  light_at (remove_background_flood_fill promo img) b = false.
Proof.
  intros Hb. unfold light_at.
  destruct (flood_fill_cases promo img b) as [[_ ->]|[Hnot ->]]; [done|].
  destruct (all_above 180 (get2 transparent img b.1 b.2)) eqn:Hl; [|done].
  destruct Hnot. by constructor.
Qed.

(** X11.  Running the edge flood fill on its own output changes nothing. *)
Theorem flood_fill_idempotent (promo : promotion) (img : image) :
  remove_background_flood_fill promo (remove_background_flood_fill promo img)
  = remove_background_flood_fill promo img.
Proof.
  set (out := remove_background_flood_fill promo img).
  pose proof (remove_flood_fill_shape promo img) as Hshape. fold out in Hshape.
  apply (array_ext transparent); [apply remove_flood_fill_shape|].
  intros i j _.
  destruct (flood_fill_cases promo out (i, j)) as [[Hreached _]|[_ Hsame]]; [|done].
  apply flooded_has_light_border in Hreached as (b & [Hgrid Hedge] & Hl).
  unfold out in Hl. rewrite (flood_fill_border_dark promo img b) in Hl; [done|].
  split; by rewrite <- (height_shape _ _ Hshape), <- (width_shape _ _ Hshape).
Qed.

(** The reached cells do not depend on how [sum] promotes, when the
    channels are bytes. *)
Lemma flooded_promotion (p q : promotion) (img : image) c :
  Forall (Forall valid_pixel) img → flooded p img c → flooded q img c.
Proof.
  intros Hvalid. induction 1 as [c Hb Hl | c c' _ IH Hn Hq Hl].
  - by constructor.
  - apply (flooded_step q img c c' IH Hn); [|done].
    assert (valid_pixel (get2 transparent img c'.1 c'.2)) as Hpix.
    { unfold get2. destruct (img !! c'.1) as [row|] eqn:Hrow; simpl.
      - destruct (row !! c'.2) as [px|] eqn:Hpx; simpl.
        + rewrite Forall_lookup in Hvalid. specialize (Hvalid _ _ Hrow).
          rewrite Forall_lookup in Hvalid. by apply (Hvalid _ _ Hpx).
        + repeat split; simpl; lia.
      - repeat split; simpl; lia. }
    rewrite (qualifies_light q _ Hpix Hl). by rewrite <- (qualifies_light p _ Hpix Hl).
Qed.

(** X12.  On images whose channels are bytes the edge flood fill gives the same
    result under both promotion rules of [sum], and a light neighbour
    passes the similarity test exactly when [r + g + b > 708]. *)
Theorem flood_fill_promotion_independent (img : image) :
  Forall (Forall valid_pixel) img →
  remove_background_flood_fill ValueBased img = remove_background_flood_fill Weak img
  ∧ ∀ promo c, light_at img c = true →
      qualifies promo (get2 transparent img c.1 c.2)
      = (708 <? red (get2 transparent img c.1 c.2)
                + green (get2 transparent img c.1 c.2)
                + blue (get2 transparent img c.1 c.2)).
Proof.
  intros Hvalid. split.
  - apply (array_ext transparent).
    { by rewrite !remove_flood_fill_shape. }
    intros i j _.
    destruct (flood_fill_cases ValueBased img (i, j)) as [[Hv Ev]|[Hv Ev]],
             (flood_fill_cases Weak img (i, j)) as [[Hw Ew]|[Hw Ew]];
      cbn [fst snd] in Ev, Ew; rewrite Ev, Ew; try done.
    + destruct Hw. by eapply flooded_promotion.
    + destruct Hv. by eapply flooded_promotion.
  - intros promo c Hl. apply qualifies_light; [|done].
    unfold get2. destruct (img !! c.1) as [row|] eqn:Hrow; simpl.
    + destruct (row !! c.2) as [px|] eqn:Hpx; simpl.
      * rewrite Forall_lookup in Hvalid. specialize (Hvalid _ _ Hrow).
        rewrite Forall_lookup in Hvalid. by apply (Hvalid _ _ Hpx).
      * repeat split; simpl; lia.
    + repeat split; simpl; lia.
Qed.

Lemma flood_fill_promotion_independent_witness :
  remove_background_flood_fill ValueBased [[white; black]; [white; white]]
  = remove_background_flood_fill Weak [[white; black]; [white; white]].
Proof.
  apply (flood_fill_promotion_independent [[white; black]; [white; white]]).
  repeat constructor; simpl; lia.
Defined.


(** ** What the checkerboard strategy clears *)

Lemma elem_of_range_by2 stop i :
  i ∈ range_by2 stop ↔ (i = 2 * (i / 2) ∧ i < stop)%nat.
Proof.
  unfold range_by2. rewrite list_elem_of_fmap, Nat.div2_div.
  pose proof (Nat.div_mod_eq (stop + 1) 2) as Hdiv.
  pose proof (Nat.mod_upper_bound (stop + 1) 2) as Hmod.
  split.
  - intros (k & -> & Hk%elem_of_seq).
    replace (2 * k / 2)%nat with k by (apply Nat.div_unique_exact; lia).
    split; [done|]. lia.
  - intros [Heven Hlt]. exists (i / 2)%nat. split; [done|]. apply elem_of_seq. lia.
Qed.

(** The blocks examined: those with an even origin that fit in the array. *)
Lemma elem_of_block_origins h w i j :
  (i, j) ∈ block_origins h w
  ↔ (i = 2 * (i / 2) ∧ j = 2 * (j / 2) ∧ i + 1 < h ∧ j + 1 < w)%nat.
Proof.
  unfold block_origins. rewrite list_elem_of_bind. split.
  - intros (i' & (j' & Hc & Hj%elem_of_range_by2)%list_elem_of_bind
            & Hi%elem_of_range_by2).
    case_bool_decide as Hfit; [|by apply elem_of_nil in Hc].
    apply list_elem_of_singleton in Hc as [= -> ->]. lia.
  - intros (Hi & Hj & Hh & Hw). exists i. split.
    + apply list_elem_of_bind. exists j. split.
      * rewrite bool_decide_eq_true_2 by lia. left.
      * apply elem_of_range_by2. lia.
    + apply elem_of_range_by2. lia.
Qed.

Definition covers (i j y x : nat) : bool :=
  bool_decide ((y = i ∨ y = i + 1) ∧ (x = j ∨ x = j + 1))%nat.

Lemma get2_set2_mark (m0 m : list (list bool)) a b y x :
  row_lengths m = row_lengths m0 →
  get2 false (set2 m a b true) y x
  = get2 false m y x || (bool_decide ((a, b) = (y, x)) && bool_decide (inside m0 y x)).
Proof.
  intros Hshape.
  rewrite (bool_decide_ext (inside m0 y x) (inside m y x))
    by (symmetry; by apply inside_shape).
  case_bool_decide as Heq.
  - injection Heq as -> ->. case_bool_decide as Hin.
    + rewrite get2_set2_eq by done. by rewrite orb_true_r.
    + rewrite (get2_outside _ m) by done. rewrite get2_outside; [done|].
      intros Hin'. apply Hin.
      by apply (proj1 (inside_shape _ _ _ _ (row_lengths_set2 m y x true))).
  - rewrite get2_set2_ne by done. by rewrite orb_false_r.
Qed.

Lemma get2_set_block (m : list (list bool)) i j y x :
  get2 false (set_block m i j) y x
  = get2 false m y x || (covers i j y x && bool_decide (inside m y x)).
Proof.
  unfold set_block.
  rewrite !(get2_set2_mark m) by (by rewrite ?row_lengths_set2).
  assert (∀ a b, bool_decide ((a, b) = (y, x)) = bool_decide (a = y ∧ b = x)) as Hpair.
  { intros a b. apply bool_decide_ext. split; [by intros [= -> ->] | by intros [-> ->]]. }
  rewrite !Hpair. unfold covers.
  destruct (get2 false m y x), (bool_decide (inside m y x)); simpl;
    rewrite ?andb_false_r, ?andb_true_r; simpl; try done.
  repeat case_bool_decide; simpl; try done; lia.
Qed.

Lemma set_block_shape (m : list (list bool)) i j :
  row_lengths (set_block m i j) = row_lengths m.
Proof. unfold set_block. by rewrite !row_lengths_set2. Qed.

(** The mask after the loop over the blocks. *)
Lemma mark_blocks (P : nat → nat → bool) (l : list (nat * nat)) (m : list (list bool)) y x :
  let m' := foldl (λ mask '(i, j), if P i j then set_block mask i j else mask) m l in
  row_lengths m' = row_lengths m
  ∧ get2 false m' y x
    = get2 false m y x
      || (bool_decide (inside m y x) && existsb (λ '(i, j), P i j && covers i j y x) l).
Proof.
  revert m. induction l as [|[i j] l IH]; intros m; simpl.
  - by rewrite andb_false_r, orb_false_r.
  - destruct (IH (if P i j then set_block m i j else m)) as [Hshape Hget].
    assert (row_lengths (if P i j then set_block m i j else m) = row_lengths m) as Hm
      by (destruct (P i j); [apply set_block_shape | done]).
    split; [by rewrite Hshape|]. rewrite Hget.
    rewrite (bool_decide_ext _ (inside m y x)) by (by apply inside_shape).
    destruct (P i j); simpl; [|done]. rewrite get2_set_block.
    destruct (get2 false m y x), (covers i j y x), (bool_decide (inside m y x)); done.
Qed.

Section CheckerboardMask.
Context (img : image).

(** The 2 by 2 block with an even origin that contains [(y, x)] lies in
    the image and has the checkerboard pattern. *)
Definition in_checkerboard_block (y x : nat) : bool :=
  let i := (2 * (y / 2))%nat in
  let j := (2 * (x / 2))%nat in
  bool_decide (i + 1 < height img ∧ j + 1 < width img)%nat
  && is_checkerboard_block (block_at img i j).

Lemma covering_block y x :
  existsb (λ '(i, j), is_checkerboard_block (block_at img i j) && covers i j y x)
          (block_origins (height img) (width img))
  = in_checkerboard_block y x.
Proof.
  apply eq_true_iff_eq. rewrite existsb_exists. unfold in_checkerboard_block. split.
  - intros ([i j] & (Hi & Hj & Hh & Hw)%list_elem_of_In%elem_of_block_origins
            & [Hcb Hcov]%andb_prop).
    unfold covers in Hcov. apply bool_decide_eq_true in Hcov as [Hy Hx].
    assert (2 * (y / 2) = i)%nat as ->.
    { pose proof (Nat.div_mod_eq y 2). pose proof (Nat.mod_upper_bound y 2).
      pose proof (Nat.div_mod_eq i 2). pose proof (Nat.mod_upper_bound i 2). lia. }
    assert (2 * (x / 2) = j)%nat as ->.
    { pose proof (Nat.div_mod_eq x 2). pose proof (Nat.mod_upper_bound x 2).
      pose proof (Nat.div_mod_eq j 2). pose proof (Nat.mod_upper_bound j 2). lia. }
    rewrite Hcb, bool_decide_eq_true_2 by lia. done.
  - intros [[Hh Hw]%bool_decide_eq_true Hcb]%andb_prop.
    exists ((2 * (y / 2))%nat, (2 * (x / 2))%nat). split.
    + apply list_elem_of_In, elem_of_block_origins.
      assert (∀ n, 2 * (n / 2) / 2 = n / 2)%nat as Hhalf.
      { intros n. symmetry. apply Nat.div_unique_exact; lia. }
      rewrite !Hhalf. lia.
    + rewrite Hcb. unfold covers. cbn [andb]. apply bool_decide_eq_true.
      pose proof (Nat.div_mod_eq y 2). pose proof (Nat.mod_upper_bound y 2).
      pose proof (Nat.div_mod_eq x 2). pose proof (Nat.mod_upper_bound x 2). lia.
Qed.

Lemma get2_clear_masked (mask : list (list bool)) y x :
  get2 transparent (clear_masked mask img) y x
  = if get2 false mask y x then transparent else get2 transparent img y x.
Proof.
  unfold clear_masked.
  change (get2 transparent img y x) with (default transparent (img !! y ≫= (.!! x))).
  unfold get2 at 1. rewrite list_lookup_imap.
  destruct (img !! y) as [row|]; simpl; [|by destruct (get2 false mask y x)].
  rewrite list_lookup_imap. destruct (row !! x) as [p|]; simpl; [done|].
  by destruct (get2 false mask y x).
Qed.

End CheckerboardMask.

(** X13.  The checkerboard strategy, pixel by pixel: a pixel is cleared to
    [(0, 0, 0, 0)] when it is very light ([r, g, b > 220]) or lies in a
    2 by 2 block with an even origin that fits in the image and has the
    checkerboard pattern; every other pixel is kept.  So a pixel with a
    channel at most 220 outside such blocks is never touched. *)
Theorem checkerboard_strategy_pixels (img : image) (y x : nat) :
  rectangular img →
  get2 transparent (remove_checkerboard_background img) y x
  = if in_checkerboard_block img y x || all_above 220 (get2 transparent img y x)
    then transparent else get2 transparent img y x.
Proof.
  intros Hrect. unfold remove_checkerboard_background. cbv zeta.
  rewrite get2_clear_masked.
  set (blocks := foldl _ _ (block_origins _ _)).
  destruct (mark_blocks (λ i j, is_checkerboard_block (block_at img i j))
              (block_origins (height img) (width img))
              (full (height img) (width img) false) y x) as [Hshape Hblocks].
  cbv zeta in Hshape, Hblocks. fold blocks in Hshape, Hblocks.
  rewrite covering_block in Hblocks.
  assert (for2 (height img) (width img)
            (λ i j mask, if all_above 220 (get2 transparent img i j)
                         then set2 mask i j true else mask) blocks
          = sweep false (λ i j cur, if all_above 220 (get2 transparent img i j)
                                    then true else cur)
                  (seq 0 (height img)) (seq 0 (width img)) blocks) as ->.
  { unfold for2, sweep, row_sweep. apply foldl_ext. intros m i _.
    apply foldl_ext. intros m' j _. unfold write_at.
    destruct (all_above 220 _); [done | by rewrite set2_get2_id]. }
  destruct (decide (y < height img ∧ x < width img)%nat) as [[Hy Hx]|Hout].
  - rewrite sweep_in; [|apply NoDup_seq..| apply elem_of_seq; lia | apply elem_of_seq; lia |].
    2:{ apply (proj2 (inside_shape _ _ _ _ Hshape)). by apply inside_full. }
    rewrite Hblocks, get2_full by done. simpl.
    rewrite bool_decide_eq_true_2 by (by apply inside_full). simpl.
    destruct (in_checkerboard_block img y x), (all_above 220 _); done.
  - rewrite sweep_out by (rewrite !elem_of_seq; lia).
    rewrite Hblocks, bool_decide_eq_false_2 by (rewrite inside_full; lia).
    rewrite get2_outside by (rewrite inside_full; lia). simpl.
    rewrite (get2_outside _ img) by (rewrite rectangular_inside by done; lia).
    by destruct (in_checkerboard_block img y x).
Qed.

Definition checkerboard_tile : image := [[white; black]; [black; white]].

Lemma checkerboard_strategy_pixels_witness :
  get2 transparent (remove_checkerboard_background checkerboard_tile) 0 1 = transparent.
Proof.
  rewrite (checkerboard_strategy_pixels checkerboard_tile 0 1) by (repeat constructor).
  vm_compute. reflexivity.
Defined.


(** ** Detection of the background type: small and empty images *)

Lemma slice_length {A} (n : nat) (l : list A) : length (slice 0 n l) = Nat.min n (length l).
Proof. unfold slice. rewrite length_take, drop_0. lia. Qed.

Lemma last_n_length {A} (n : nat) (l : list A) : length (last_n n l) = Nat.min n (length l).
Proof. unfold last_n. rewrite length_drop. lia. Qed.

Lemma width_bound {A} (n : nat) (arr : list (list A)) :
  Forall (λ row, (length row ≤ n)%nat) arr → (width arr ≤ n)%nat.
Proof. destruct 1; simpl; lia. Qed.

(** The four sampled corners have at most 10 rows, of at most 10 pixels,
    and no more than the image has. *)
Lemma corner_samples_bounds (img : image) (n : nat) corner :
  Forall (λ row, (length row ≤ n)%nat) img → corner ∈ corner_samples img →
  (height corner ≤ Nat.min 10 (height img))%nat
  ∧ Forall (λ row, (length row ≤ Nat.min 10 n)%nat) corner.
Proof.
  intros Himg Hcorner.
  assert (Forall (λ row : list pixel, (length row ≤ n)%nat) (slice 0 10 img)) as Htop
    by (unfold slice; by apply Forall_take, Forall_drop).
  assert (Forall (λ row : list pixel, (length row ≤ n)%nat) (last_n 10 img)) as Hbottom
    by (unfold last_n; by apply Forall_drop).
  unfold corner_samples, height in *.
  repeat (apply elem_of_cons in Hcorner as [->|Hcorner]);
    [..|by apply elem_of_nil in Hcorner];
    rewrite length_fmap, ?slice_length, ?last_n_length; (split; [lia|]);
    apply Forall_fmap; (eapply Forall_impl; [|first [exact Htop | exact Hbottom]]);
    intros row Hrow; unfold compose; cbn beta in *;
    rewrite ?slice_length, ?last_n_length; lia.
Qed.

Lemma checkerboard_score_zero (corners : list image) :
  Forall (λ corner, has_checkerboard_pattern corner = false) corners →
  foldl (λ score corner, if has_checkerboard_pattern corner then score + 1 else score)
        0 corners = 0.
Proof.
  generalize 0. induction 1 as [|corner corners Hc _ IH]; simpl; [done|].
  by rewrite Hc.
Qed.

(** [total_pixels] counts the pixels of the samples. *)
Lemma sampled_total (corners : list image) (acc : Z * Z) :
  (foldl (λ acc corner,
     foldl (λ acc row,
       foldl (λ '(light, tot) p,
                ((if all_above 200 p then light + 1 else light), tot + 1))
             acc row) acc corner) acc corners).2
  = acc.2 + Z.of_nat (length (concat (concat corners))).
Proof.
  revert acc. induction corners as [|corner corners IHc]; intros acc; simpl; [lia|].
  rewrite IHc, concat_app, length_app. clear IHc.
  enough ((foldl (λ acc row,
             foldl (λ '(light, tot) p,
                      ((if all_above 200 p then light + 1 else light), tot + 1))
                   acc row) acc corner).2
          = acc.2 + Z.of_nat (length (concat corner))) as -> by lia.
  revert acc. induction corner as [|row corner IHr]; intros acc; simpl; [lia|].
  rewrite IHr, length_app. clear IHr.
  enough ((foldl (λ '(light, tot) p,
                    ((if all_above 200 p then light + 1 else light), tot + 1))
                 acc row).2
          = acc.2 + Z.of_nat (length row)) as -> by lia.
  revert acc. induction row as [|p row IHp]; intros [light tot]; simpl; [lia|].
  rewrite IHp. simpl. lia.
Qed.

Lemma detect_none_iff (img : image) :
  detect_background_type img = None ↔ concat (concat (corner_samples img)) = []
  ∧ foldl (λ score corner, if has_checkerboard_pattern corner then score + 1 else score)
          0 (corner_samples img) < 2.
Proof.
  unfold detect_background_type. cbv zeta.
  destruct (Z.leb_spec 2 (foldl (λ score corner,
              if has_checkerboard_pattern corner then score + 1 else score)
              0 (corner_samples img))) as [Hscore|Hscore].
  { split; [done | intros [_ ?]; lia]. }
  pose proof (sampled_total (corner_samples img) (0, 0)) as Htotal.
  destruct (foldl _ (0, 0) (corner_samples img)) as [light tot]. cbn [snd] in Htotal.
  destruct (Z.eqb_spec tot 0) as [->|Hne].
  - split; [|done]. intros _. split; [|done].
    destruct (concat (concat (corner_samples img))); [done | cbn [length] in Htotal; lia].
  - split; [by destruct (fgt _ _)|]. intros [Hnil _]. rewrite Hnil in Htotal.
    cbn [length] in Htotal. lia.
Qed.

Lemma small_image_no_checkerboard (img : image) :
  rectangular img → (height img < 4 ∨ width img < 4)%nat →
  Forall (λ corner, has_checkerboard_pattern corner = false) (corner_samples img).
Proof.
  intros Hrect Hsmall. apply Forall_forall. intros corner Hcorner%list_elem_of_In.
  destruct (corner_samples_bounds img (width img) corner) as [Hh Hw]; [|done|].
  { eapply Forall_impl; [|exact Hrect]. intros row Hrow. simpl in *. lia. }
  apply width_bound in Hw. unfold has_checkerboard_pattern.
  destruct (Nat.ltb_spec (height corner) 4), (Nat.ltb_spec (width corner) 4);
    simpl; try done; lia.
Qed.

Lemma empty_image_no_sample (img : image) :
  rectangular img → (height img = 0 ∨ width img = 0)%nat →
  concat (concat (corner_samples img)) = [].
Proof.
  intros Hrect Hempty.
  assert (Forall (λ corner : image, concat corner = []) (corner_samples img)) as Hall.
  { apply Forall_forall. intros corner Hcorner%list_elem_of_In.
    destruct (corner_samples_bounds img (width img) corner) as [Hh Hw]; [|done|].
    { eapply Forall_impl; [|exact Hrect]. intros row Hrow. simpl in *. lia. }
    destruct Hempty as [Hz|Hz]; rewrite Hz in *.
    - unfold height in Hh. destruct corner; [done | simpl in Hh; lia].
    - clear Hh Hcorner. induction Hw as [|row corner Hrow _ IH]; [done|].
      destruct row; [done | simpl in Hrow; lia]. }
  revert Hall. generalize (corner_samples img).
  induction 1 as [|corner corners Hc _ IH]; [done|]. simpl.
  by rewrite concat_app, Hc, IH.
Qed.

Lemma nonempty_image_sampled (img : image) :
  rectangular img → (0 < height img)%nat → (0 < width img)%nat →
  concat (concat (corner_samples img)) ≠ [].
Proof.
  intros Hrect Hh Hw. destruct img as [|[|p row] img]; simpl in *; try lia. done.
Qed.

(** X14.  Auto-detection fails (a division by zero, turned into [None]) exactly
    on images without pixels; an image with fewer than 4 rows or columns
    is never classified as a checkerboard; and on an image with pixels
    [remove_complex_background] returns a result of the input's shape
    for every choice of method. *)
Theorem detection_defined_on_pixels (img : image) :
  rectangular img →
  (detect_background_type img = None ↔ (height img = 0 ∨ width img = 0)%nat)
  ∧ ((height img < 4 ∨ width img < 4)%nat →
     detect_background_type img ≠ Some Checkerboard)
  ∧ ((0 < height img ∧ 0 < width img)%nat → ∀ promo choice,
     ∃ out, remove_complex_background promo choice img = Some out
            ∧ row_lengths out = row_lengths img).
Proof.
  intros Hrect.
  assert (detect_background_type img = None ↔ (height img = 0 ∨ width img = 0)%nat)
    as Hnone.
  { rewrite detect_none_iff. split.
    - intros [Hnil _].
      destruct (decide (height img = 0 ∨ width img = 0)%nat) as [|Hpix]; [done|].
      destruct (nonempty_image_sampled img Hrect); [lia | lia | done].
    - intros Hempty. split; [by apply empty_image_no_sample|].
      rewrite checkerboard_score_zero; [lia|].
      apply small_image_no_checkerboard; [done | lia]. }
  split; [done|]. split.
  - intros Hsmall. unfold detect_background_type. cbv zeta.
    rewrite checkerboard_score_zero by (by apply small_image_no_checkerboard).
    change (2 <=? 0) with false. cbv iota.
    destruct (foldl _ (0, 0) (corner_samples img)) as [light tot].
    destruct (tot =? 0); [done|]. by destruct (fgt _ _).
  - intros [Hh Hw] promo choice. unfold remove_complex_background.
    assert (∀ m, row_lengths (apply_method promo m img) = row_lengths img) as Hshape.
    { intros [| |]; [apply remove_checkerboard_shape | apply remove_white_gray_shape
                    | apply remove_flood_fill_shape]. }
    destruct choice as [|m]; [|by eexists].
    destruct (detect_background_type img) as [m|]; [by eexists|].
    destruct (proj1 Hnone eq_refl); lia.
Qed.

Lemma detection_defined_on_pixels_witness :
  detect_background_type [] = None
  ∧ ∃ out, remove_complex_background Weak Auto [[white]] = Some out
           ∧ row_lengths out = row_lengths [[white]].
Proof.
  split.
  - apply (proj1 (detection_defined_on_pixels [] ltac:(constructor))). by left.
  - apply (detection_defined_on_pixels [[white]] ltac:(repeat constructor)).
    simpl. lia.
Defined.

(** ** The checkerboard test of a block, on the uint8 sums *)

(** [r + g + b] as the block test computes it: a uint8, wrapped. *)
Definition channel_sum (p : pixel) : Z := u8_add (u8_add (red p) (green p)) (blue p).

Definition block_sum (block : image) (i j : nat) : Z :=
  channel_sum (get2 transparent block i j).

Definition level (s : Z) : float := PrimFloat.div (float_of_Z s) 3%float.

(** For two uint8 sums: how the comparisons of the brightness difference
    with 30 and with 50 relate to the difference of the sums. *)
Definition block_test_row (a : Z) : bool :=
  forallb (λ c, let d := fabs_diff (level a) (level c) in
                let n := Z.abs (a - c) in
                implb (n <? 90) (flt d 30%float) && implb (flt d 30%float) (n <=? 90)
                && implb (150 <? n) (fgt d 50%float) && implb (fgt d 50%float) (150 <=? n))
          (Z.of_nat <$> seq 0 256).

Lemma block_test_table : forallb block_test_row (Z.of_nat <$> seq 0 256) = true.
Proof. vm_compute. reflexivity. Qed.

Lemma block_test (a c : Z) :
  0 ≤ a < 256 → 0 ≤ c < 256 →
  let d := fabs_diff (level a) (level c) in
  (Z.abs (a - c) < 90 → flt d 30%float = true)
  ∧ (flt d 30%float = true → Z.abs (a - c) ≤ 90)
  ∧ (150 < Z.abs (a - c) → fgt d 50%float = true)
  ∧ (fgt d 50%float = true → 150 ≤ Z.abs (a - c)).
Proof.
  intros Ha Hc d.
  assert (∀ s, 0 ≤ s < 256 → In s (Z.of_nat <$> seq 0 256)) as Hin.
  { intros s Hs. apply list_elem_of_In, list_elem_of_fmap. exists (Z.to_nat s).
    split; [lia|]. apply elem_of_seq. lia. }
  pose proof block_test_table as Htable. rewrite forallb_forall in Htable.
  specialize (Htable a (Hin a Ha)). unfold block_test_row in Htable.
  rewrite forallb_forall in Htable. specialize (Htable c (Hin c Hc)).
  cbv zeta in Htable. fold d in Htable.
  destruct (flt d 30%float), (fgt d 50%float),
    (Z.ltb_spec (Z.abs (a - c)) 90), (Z.leb_spec (Z.abs (a - c)) 90),
    (Z.ltb_spec 150 (Z.abs (a - c))), (Z.leb_spec 150 (Z.abs (a - c)));
    simpl in Htable; try discriminate; repeat split; intros; first [done | lia].
Qed.

Lemma channel_sum_range (p : pixel) : 0 ≤ channel_sum p < 256.
Proof. unfold channel_sum, u8_add. apply Z.mod_pos_bound. lia. Qed.

Definition sums_block (a c : Z) : image :=
  [ [RGBA a 0 0 255; RGBA c 0 0 255]; [RGBA c 0 0 255; RGBA a 0 0 255] ].

(** X15.  The test that [is_checkerboard_block] makes, read on the wrapped
    uint8 sums [s = (r + g + b) mod 256] of the four pixels.  An accepted
    block is 2 by 2 with diagonal sums at most 90 apart and the sums of
    the top row at least 150 apart; a 2 by 2 block with diagonal sums
    less than 90 apart and top sums more than 150 apart is accepted.  At
    a distance of exactly 150 the rounding of the divisions by 3 decides:
    the sums 44 and 194 are accepted, the sums 0 and 150 are not. *)
Theorem checkerboard_block_sums (block : image) :
  let s00 := block_sum block 0 0 in
  let s01 := block_sum block 0 1 in
  let s10 := block_sum block 1 0 in
  let s11 := block_sum block 1 1 in
  (is_checkerboard_block block = true →
     height block = 2%nat ∧ width block = 2%nat
     ∧ Z.abs (s00 - s11) ≤ 90 ∧ Z.abs (s01 - s10) ≤ 90 ∧ 150 ≤ Z.abs (s00 - s01))
  ∧ (height block = 2%nat ∧ width block = 2%nat
     ∧ Z.abs (s00 - s11) < 90 ∧ Z.abs (s01 - s10) < 90 ∧ 150 < Z.abs (s00 - s01) →
     is_checkerboard_block block = true)
  ∧ is_checkerboard_block (sums_block 44 194) = true
  ∧ is_checkerboard_block (sums_block 0 150) = false.
Proof.
  intros s00 s01 s10 s11.
  assert (∀ i j, brightness (get2 transparent block i j) = level (block_sum block i j))
    as Hlevel by done.
  assert (∀ i j, 0 ≤ block_sum block i j < 256) as Hrange
    by (intros; apply channel_sum_range).
  destruct (block_test s00 s11 (Hrange _ _) (Hrange _ _)) as (Hd1a & Hd1b & _).
  destruct (block_test s01 s10 (Hrange _ _) (Hrange _ _)) as (Hd2a & Hd2b & _).
  destruct (block_test s00 s01 (Hrange _ _) (Hrange _ _)) as (_ & _ & Hca & Hcb).
  unfold is_checkerboard_block. rewrite !Hlevel. fold s00 s01 s10 s11.
  split; [|split; [|split; vm_compute; reflexivity]].
  - destruct (Nat.eqb_spec (height block) 2), (Nat.eqb_spec (width block) 2);
      simpl; try done.
    intros [[H1 H2]%andb_prop H3]%andb_prop. repeat split; auto.
  - intros (-> & -> & H1 & H2 & H3). simpl.
    by rewrite (Hd1a H1), (Hd2a H2), (Hca H3).
Qed.
